(** * binlog: the storage engine ([binlog/connection.py]) and the segmented
    log writer ([binlog/writer.py]), embedded as executable functions.

    The engine keeps two LMDB environments (data and readers).  Every
    operation opens an environment, runs a transaction and leaves it through
    Python's [with]; the transaction is therefore modelled as a state and
    error computation over the content of the environment, and the scope
    as a combinator that commits or aborts. *)

From stdpp Require Import gmap strings list fin_maps sorting pretty.

Set Default Proof Using "Type".
Local Open Scope string_scope.
Local Open Scope N_scope.

(** ** Exceptions and results *)

Inductive Exc : Type :=
  | IntegrityError (msg : string)
  | ReaderDoesNotExist
  | ValueError (msg : string)
  | ReadonlyError.

#[global] Instance Exc_eq_dec : EqDecision Exc.
Proof. solve_decision. Defined.

Inductive result (A : Type) : Type :=
  | Ok (a : A)
  | Raise (e : Exc).
Arguments Ok {A} a.
Arguments Raise {A} e.

(** A computation inside one transaction over a state [S]: it yields a value
    or an exception, together with the state as the transaction sees it at
    that point. *)
Definition Txn (S A : Type) : Type := S → result A * S.

Definition ret {S A} (a : A) : Txn S A := λ s, (Ok a, s).
Definition raise {S A} (e : Exc) : Txn S A := λ s, (Raise e, s).
Definition bind {S A B} (m : Txn S A) (k : A → Txn S B) : Txn S B :=
  λ s, match m s with
       | (Ok a, s') => k a s'
       | (Raise e, s') => (Raise e, s')
       end.
(** [util.MaskException(exp, mask)] as a decorator: the exception [exp] of
    the decorated function is raised as [mask]. *)
Definition MaskException {S A} (exp mask : Exc) (f : Txn S A) : Txn S A :=
  λ s, match f s with
       | (Raise e, s') => (Raise (if decide (e = exp) then mask else e), s')
       | r => r
       end.

Definition gets {S A} (f : S → A) : Txn S A := λ s, (Ok (f s), s).
Definition modify {S} (f : S → S) : Txn S unit := λ s, (Ok tt, f s).

Notation "'do' x <- m ; k" := (bind m (λ x, k))
  (at level 10, x name, m at level 100, k at level 200).
Notation "'do' ' p <- m ; k" := (bind m (λ x, match x with p => k end))
  (at level 10, p pattern, m at level 100, k at level 200).
Notation "m ;; k" := (bind m (λ _, k))
  (at level 100, k at level 200, right associativity).

(** ** Entries and the model descriptor *)

Inductive Value : Type :=
  | VNum (n : N)
  | VText (s : string).

#[global] Instance Value_eq_dec : EqDecision Value.
Proof. solve_decision. Defined.

#[global] Instance Value_countable : Countable Value.
Proof.
  refine (inj_countable'
            (λ v, match v with VNum n => inl n | VText s => inr s end)
            (λ x, match x with inl n => VNum n | inr s => VText s end) _).
  by intros [].
Defined.

(** Modelled from the spec: the model class ([binlog/model.py]) is not among
    the sources.  An entry is a mapping from field names to values that
    carries the attributes [pk] and [saved]; a freshly constructed entry is
    unsaved and has no primary key.  [copy] is the mapping alone. *)
Record Entry : Type := mkEntry {
  fields : gmap string Value;
  pk : option N;
  saved : bool
}.

(** Modelled from the spec: [self.model] called on the fields, the constructor. *)
Definition new_entry (kwargs : gmap string Value) : Entry :=
  {| fields := kwargs; pk := None; saved := false |}.

(** Modelled from the spec: [entry.get(name)], [None] for a missing field. *)
Definition get (e : Entry) (name : string) : option Value := fields e !! name.

(** Modelled from the spec: [entry.copy()], the fields as a plain mapping. *)
Definition copy (e : Entry) : gmap string Value := fields e.

(** Modelled from the spec: [entry.mark_as_saved(pk)]; it is also what the
    two assignments [entry.pk = next_idx; entry.saved = True] of [create]
    do. *)
Definition mark_as_saved (e : Entry) (k : N) : Entry :=
  {| fields := fields e; pk := Some k; saved := true |}.

(** A declared index.  The index classes and their cursors are not among
    the sources.  [delete_no_pk] is what the cursor of the index does on
    [cursor.delete(key, value)] when [value] is no primary key ([None]):
    nothing says what that is, so it is left open; given the name of the
    sub-database, the key and the index pairs, it tells the exception raised
    or the index pairs left. *)
Record Index : Type := mkIndex {
  mandatory : bool;
  delete_no_pk :
    string → Value → gset (string * Value * N) →
    Exc + gset (string * Value * N)
}.

(** What the engine reads from [self.model]: the declared indexes in
    declaration order and the expansion of the [index_db_format] template. *)
Record Model : Type := mkModel {
  _indexes : list (string * Index);
  index_db_format : string → string
}.

Record Connection : Type := mkConnection {
  model : Model;
  path : string;
  kwargs : list (string * N);
  closed : bool
}.

Definition close (self : Connection) : Connection :=
  {| model := model self; path := path self; kwargs := kwargs self;
     closed := true |}.

Definition _get_index_name (self : Connection) (name : string) : string :=
  index_db_format (model self) name.

(** ** The two environments

    A sub-database is identified with its content: [config] and [entries]
    are finite maps, the index sub-databases (opened with [dupsort]) are
    one set of triples (sub-database name, key, pk). *)

(** Modelled from the spec: [binlog/registry.py] is not among the sources.
    A registry is a finite set of primary keys; [|] is union, [&] is
    intersection, iteration is in ascending order. *)
Abbreviation Registry := (gset N).

Definition registry_iter (r : Registry) : list N :=
  merge_sort N.le (elements r).

Record DataEnv : Type := mkDataEnv {
  config : gmap string N;
  entries : gmap N (gmap string Value);
  indexes : gset (string * Value * N)
}.

Record ReadersEnv : Type := mkReadersEnv {
  checkpoints : gmap string Registry
}.

Record Store : Type := mkStore {
  data_env : DataEnv;
  readers_env : ReadersEnv
}.

(** [with self.data(write) as res: body].  LMDB's transaction is a context
    manager: it commits when the block is left normally (also by [return])
    and aborts when the block is left by an exception. *)
Definition data {A} (self : Connection) (write : bool)
    (body : Txn DataEnv A) : Txn Store A :=
  λ st, match body (data_env st) with
        | (Ok a, env') =>
            (Ok a, if write
                   then {| data_env := env'; readers_env := readers_env st |}
                   else st)
        | (Raise e, _) => (Raise e, st)
        end.

Definition readers {A} (self : Connection) (write : bool)
    (body : Txn ReadersEnv A) : Txn Store A :=
  λ st, match body (readers_env st) with
        | (Ok a, env') =>
            (Ok a, if write
                   then {| data_env := data_env st; readers_env := env' |}
                   else st)
        | (Raise e, _) => (Raise e, st)
        end.

(** ** Cursor operations

    [binlog/databases.py] (the typed cursors [Config], [Entries],
    [Checkpoints] and the index cursors over LMDB's cursor) is not among the
    sources; each operation below is modelled from the spec and from LMDB's
    contract for the flags that [connection.py] passes. *)

Definition set_config (f : gmap string N → gmap string N) (d : DataEnv) : DataEnv :=
  {| config := f (config d); entries := entries d; indexes := indexes d |}.
Definition set_entries
    (f : gmap N (gmap string Value) → gmap N (gmap string Value))
    (d : DataEnv) : DataEnv :=
  {| config := config d; entries := f (entries d); indexes := indexes d |}.
Definition set_indexes
    (f : gset (string * Value * N) → gset (string * Value * N))
    (d : DataEnv) : DataEnv :=
  {| config := config d; entries := entries d; indexes := f (indexes d) |}.

(** Append mode: a key is accepted only when it is greater than every key
    of the sub-database. *)
Definition append_ok (k : N) (m : gmap N (gmap string Value)) : bool :=
  bool_decide (map_Forall (λ k' _, k' < k) m).

Module Config.

(** Modelled from the spec: [Config.cursor] is not among the sources.
    [cursor.get(key, default=...)] *)
Definition get (key : string) (dflt : N) : Txn DataEnv N :=
  gets (λ d, default dflt (config d !! key)).

(** Modelled from the spec: [Config.cursor] is not among the sources.
    [cursor.put(key, value, overwrite=True)] *)
Definition put (key : string) (value : N) : Txn DataEnv bool :=
  modify (set_config (insert key value)) ;; ret true.

End Config.

Module Entries.

(** Modelled from the spec: [Entries.cursor] is not among the sources.
    [cursor.put(key, value, overwrite=False, append=True)]: in append mode
    the key is refused, and [False] returned, unless it is greater than
    every key of the sub-database. *)
Definition put (key : N) (value : gmap string Value) : Txn DataEnv bool :=
  λ d, if append_ok key (entries d)
       then (Ok true, set_entries (insert key value) d)
       else (Ok false, d).

(** Modelled from the spec: [Entries.cursor] is not among the sources.
    [cursor.putmulti(items, dupdata=False, overwrite=False, append=True)]:
    one [put] per item, a refused item is skipped; the pair returned counts
    the items read and the items accepted. *)
Fixpoint putmulti (items : list (N * gmap string Value))
    : Txn DataEnv (nat * nat) :=
  match items with
  | [] => ret (0%nat, 0%nat)
  | (k, v) :: rest =>
      do ok <- put k v;
      do '(consumed, added) <- putmulti rest;
      ret (S consumed, if ok : bool then S added else added)
  end.

(** Modelled from the spec: [Entries.cursor] is not among the sources.
    [cursor.pop(key)]: the value stored at [key], which is deleted; [None]
    when there is none (no record is stored under a key that is not a
    number). *)
Definition pop (key : option N) : Txn DataEnv (option (gmap string Value)) :=
  λ d, match key with
       | Some k =>
           match entries d !! k with
           | Some v => (Ok (Some v), set_entries (delete k) d)
           | None => (Ok None, d)
           end
       | None => (Ok None, d)
       end.

End Entries.

Module IndexCursor.

(** Modelled from the spec: the index cursors are not among the sources.
    [cursor.put(key, value, overwrite=True, dupdata=True)]: the pair is
    added to the sorted duplicates of [key]; a value that is not a primary
    key stores nothing. *)
Definition put (db_name : string) (key : Value) (value : option N)
    : Txn DataEnv unit :=
  match value with
  | Some p => modify (set_indexes (λ ix, {[ (db_name, key, p) ]} ∪ ix))
  | None => ret tt
  end.

(** Modelled from the spec: the index cursors are not among the sources.
    [cursor.delete(key, value)] on the cursor of [index] removes the pair
    (key, value); with a value that is no primary key it does what the index
    is given to do ([delete_no_pk]). *)
Definition delete (index : Index) (db_name : string) (key : Value)
    (value : option N) : Txn DataEnv unit :=
  match value with
  | Some p => modify (set_indexes (λ ix, ix ∖ {[ (db_name, key, p) ]}))
  | None =>
      λ d, match delete_no_pk index db_name key (indexes d) with
           | inr ix => (Ok tt, set_indexes (λ _, ix) d)
           | inl e => (Raise e, d)
           end
  end.

End IndexCursor.

Module Checkpoints.

(** Modelled from the spec: [Checkpoints.cursor] is not among the sources.
    [cursor.get(name, default=None)] *)
Definition get (name : string) : Txn ReadersEnv (option Registry) :=
  gets (λ r, checkpoints r !! name).

(** Modelled from the spec: [Checkpoints.cursor] is not among the sources.
    [cursor.put(name, registry, overwrite=...)]: whether it was stored. *)
Definition put (name : string) (r : Registry) (overwrite : bool)
    : Txn ReadersEnv bool :=
  λ env, match checkpoints env !! name with
         | Some _ =>
             if overwrite
             then (Ok true, {| checkpoints := <[name := r]> (checkpoints env) |})
             else (Ok false, env)
         | None => (Ok true, {| checkpoints := <[name := r]> (checkpoints env) |})
         end.

(** Modelled from the spec: [Checkpoints.cursor] is not among the sources.
    [cursor.pop(name)] *)
Definition pop (name : string) : Txn ReadersEnv (option Registry) :=
  λ env, match checkpoints env !! name with
         | Some r => (Ok (Some r), {| checkpoints := delete name (checkpoints env) |})
         | None => (Ok None, env)
         end.

(** Modelled from the spec: [Checkpoints.cursor] is not among the sources.
    [cursor.iternext(values=False)]: every key once ([remove] and [purge],
    which loop over the keys, give the same result in any order). *)
Definition iternext : Txn ReadersEnv (list string) :=
  gets (λ env, elements (dom (checkpoints env))).

End Checkpoints.

(** ** The engine: [Connection] *)

Definition _get_next_event_idx (self : Connection) : Txn DataEnv N :=
  Config.get "next_event_id" 0.

Definition _update_next_event_idx (self : Connection) (value : N)
    : Txn DataEnv bool :=
  Config.put "next_event_id" value.

Fixpoint _index_for (self : Connection) (ixs : list (string * Index))
    (entry : Entry) : Txn DataEnv unit :=
  match ixs with
  | [] => ret tt
  | (index_name, index) :: rest =>
      let db_name := _get_index_name self index_name in
      let key := get entry index_name in
      let value := pk entry in
      match key with
      | None =>
          if mandatory index
          then raise (ValueError ("value " ++ index_name ++ " is mandatory"))
          else _index_for self rest entry
      | Some k =>
          IndexCursor.put db_name k value ;; _index_for self rest entry
      end
  end.

Definition _index (self : Connection) (entry : Entry) : Txn DataEnv unit :=
  _index_for self (_indexes (model self)) entry.

Fixpoint _unindex_for (self : Connection) (ixs : list (string * Index))
    (entry : Entry) : Txn DataEnv unit :=
  match ixs with
  | [] => ret tt
  | (index_name, index) :: rest =>
      let db_name := _get_index_name self index_name in
      match get entry index_name with
      | Some key =>
          let value := pk entry in
          IndexCursor.delete index db_name key value ;;
          _unindex_for self rest entry
      | None => _unindex_for self rest entry
      end
  end.

Definition _unindex (self : Connection) (entry : Entry) : Txn DataEnv unit :=
  _unindex_for self (_indexes (model self)) entry.

(** The block under [with self.data(write=True) as res:] in [create]. *)
Definition create_txn (self : Connection) (kwargs : gmap string Value)
    : Txn DataEnv Entry :=
  do next_idx <- _get_next_event_idx self;
  let entry := new_entry kwargs in
  do success <- Entries.put next_idx (copy entry);
  _update_next_event_idx self (next_idx + 1) ;;
  if success : bool then
    let entry := mark_as_saved entry next_idx in
    _index self entry ;;
    ret entry
  else raise (IntegrityError "Key already exists").

Definition create (self : Connection) (kwargs : gmap string Value)
    : Txn Store Entry :=
  data self true (create_txn self kwargs).

(** [get_raw] of [bulk_create]: the entries numbered from [next_idx]; each
    one is marked as saved under its number when the generator reaches it. *)
Fixpoint get_raw (entries : list Entry) (next_idx : N) : list (N * Entry) :=
  match entries with
  | [] => []
  | entry :: rest =>
      (next_idx, mark_as_saved entry next_idx) :: get_raw rest (next_idx + 1)
  end.

(** The block under [with self.data(write=True) as res:] in [bulk_create]. *)
Definition bulk_create_txn (self : Connection) (entries : list Entry)
    : Txn DataEnv nat :=
  do next_idx <- _get_next_event_idx self;
  do '(consumed, added) <-
    Entries.putmulti (map (λ '(k, e), (k, copy e)) (get_raw entries next_idx));
  _update_next_event_idx self (next_idx + N.of_nat consumed) ;;
  if decide (consumed ≠ added)
  then raise (IntegrityError "Some key already exists")
  else ret added.

Definition bulk_create (self : Connection) (entries : list Entry)
    : Txn Store nat :=
  data self true (bulk_create_txn self entries).

(** Modelled from the spec: [binlog/reader.py] is not among the sources.  A
    reader is bound to its connection, its name and the registry loaded for
    it; [is_acked] is membership of the entry's pk in that registry. *)
Record Reader : Type := mkReader {
  connection : Connection;
  name : option string;
  registry : option Registry
}.

(** Modelled from the spec: [Reader.is_acked] is not among the sources;
    [is_acked(entry)] is [entry.pk ∈ registry]. *)
Definition is_acked (r : Reader) (entry : Entry) : bool :=
  match pk entry, registry r with
  | Some k, Some reg => bool_decide (k ∈ reg)
  | _, _ => false
  end.

Definition reader (self : Connection) (name : option string)
    : Txn Store Reader :=
  MaskException ReadonlyError ReaderDoesNotExist (
    match name with
    | Some n =>
        do registry <- readers self false (
          do registry <- Checkpoints.get n;
          match registry with
          | None => raise ReaderDoesNotExist
          | Some r => ret r
          end);
        ret (mkReader self name (Some registry))
    | None => ret (mkReader self None None)
    end).

Definition register_reader (self : Connection) (name : string)
    : Txn Store bool :=
  readers self true (Checkpoints.put name ∅ false).

Definition unregister_reader (self : Connection) (name : string)
    : Txn Store bool :=
  MaskException ReadonlyError ReaderDoesNotExist (
    readers self true (
      do old <- Checkpoints.pop name;
      match old with
      | None => raise ReaderDoesNotExist
      | Some _ => ret true
      end)).

Definition save_registry (self : Connection) (name : string)
    (new_registry : Registry) : Txn Store bool :=
  readers self true (
    do stored <- Checkpoints.get name;
    let stored_registry := default ∅ stored in
    Checkpoints.put name (stored_registry ∪ new_registry) true).

Definition list_readers (self : Connection) : Txn Store (list string) :=
  readers self true Checkpoints.iternext.

(** The [for ... else] of [remove]: [orelse] runs when the loop ends without
    its [return False].  The reader's scope records no acknowledgement, so
    leaving it saves nothing. *)
Fixpoint remove_for (self : Connection) (entry : Entry) (names : list string)
    (orelse : Txn Store bool) : Txn Store bool :=
  match names with
  | [] => orelse
  | name :: rest =>
      do reader <- reader self (Some name);
      if is_acked reader entry
      then remove_for self entry rest orelse
      else ret false
  end.

(** The [else] block of that loop. *)
Definition remove_else (self : Connection) (entry : Entry) : Txn Store bool :=
  data self true (
    do old <- Entries.pop (pk entry);
    let success := bool_decide (is_Some old) in
    if success
    then _unindex self entry ;; ret success
    else ret success).

Definition remove (self : Connection) (entry : Entry) : Txn Store bool :=
  do readers <- list_readers self;
  match readers with
  | [] => raise ReaderDoesNotExist
  | _ => remove_for self entry readers (remove_else self entry)
  end.

Fixpoint purge_registries (self : Connection) (names : list string)
    : Txn Store (list Registry) :=
  match names with
  | [] => ret []
  | name :: rest =>
      do r <- reader self (Some name);
      do rs <- purge_registries self rest;
      ret (default ∅ (registry r) :: rs)
  end.

Fixpoint purge_for (self : Connection) (pks : list N) (removed errors : nat)
    : Txn DataEnv (nat * nat) :=
  match pks with
  | [] => ret (removed, errors)
  | pk :: rest =>
      do value <- Entries.pop (Some pk);
      match value with
      | Some v =>
          _unindex self (new_entry v) ;;
          purge_for self rest (S removed) errors
      | None => purge_for self rest removed 0%nat
      end
  end.

(** [reduce(op.and_, registries)] on a list that is not empty. *)
Definition reduce_and (r0 : Registry) (rs : list Registry) : Registry :=
  foldl (∩) r0 rs.

Definition purge (self : Connection) : Txn Store (nat * nat) :=
  do names <- list_readers self;
  do registries <- purge_registries self names;
  match registries with
  | [] => ret (0%nat, 0%nat)
  | r0 :: rs =>
      let common_acked := reduce_and r0 rs in
      data self true (purge_for self (registry_iter common_acked) 0%nat 0%nat)
  end.

(** The stored primary-key counter, as [_get_next_event_idx] reads it. *)
Definition next_event_id (d : DataEnv) : N :=
  default 0 (config d !! "next_event_id").

(** The triples that un-indexing an entry takes away. *)
Definition index_pairs (self : Connection) (ixs : list (string * Index))
    (e : Entry) : gset (string * Value * N) :=
  match pk e with
  | Some k =>
      list_to_set
        (omap (λ '(n, _), (λ key, (_get_index_name self n, key, k)) <$> get e n)
              ixs)
  | None => ∅
  end.


(** The entry's pk is in the registry. *)
Definition acked_in (entry : Entry) (r : Registry) : Prop :=
  ∃ k, pk entry = Some k ∧ k ∈ r.

(** The entries sub-database once every item of [get_raw] is accepted. *)
Fixpoint stored_after (es : list Entry) (next_idx : N)
    (m : gmap N (gmap string Value)) : gmap N (gmap string Value) :=
  match es with
  | [] => m
  | e :: rest => stored_after rest (next_idx + 1) (<[next_idx := copy e]> m)
  end.

(** The pk is in the stored registry of every registered reader. *)
Definition acked_by_all (cp : gmap string Registry) (k : N) : Prop :=
  map_Forall (λ _ r, k ∈ r) cp.

#[global] Instance acked_by_all_dec cp k : Decision (acked_by_all cp k).
Proof. unfold acked_by_all. apply _. Defined.

(** The state of the data environment in which an append at the counter is
    accepted: the counter is above every stored pk. *)
Definition counter_above_keys (d : DataEnv) : Prop :=
  append_ok (next_event_id d) (entries d) = true.

(** * The segmented log writer ([binlog/writer.py])

    The writer keeps Berkeley DB record-number databases: [logindex], whose
    records are the segment names, and one database per segment.  A
    record-number database is the list of its records with their numbers,
    in ascending order. *)

Module Writer.

Definition RecnoDB (A : Type) : Type := list (N * A).

(** [cursor.last()] *)
Definition recno_last {A} (db : RecnoDB A) : option (N * A) := last db.

(** [db.append(x)]: the record gets the number after the last one (1 in an
    empty database), which is returned. *)
Definition recno_append {A} (db : RecnoDB A) (x : A) : N * RecnoDB A :=
  let idx := match recno_last db with
             | Some (i, _) => i + 1
             | None => 1
             end in
  (idx, (db ++ [(idx, x)])%list).

(** The exceptions of the writer's operations. *)
Inductive Error : Type :=
  | UnboundLocalError
  | InUse
  | NotFound.

Section WithConstants.

(** [pickle.dumps] and the constant [LOG_PREFIX] of [binlog/constants.py],
    which is not among the sources. *)
Context {Data Bytes : Type}.
Variable pickle_dumps : Data → Bytes.
Variable LOG_PREFIX : string.

Record t : Type := mk {
  env : gmap string (RecnoDB Bytes);
  logindex : RecnoDB string;
  max_log_events : N;
  _current_log : option string;
  next_will_create_log : bool;
  (** Modelled from the spec: the progress pointer (segment number, record
      number) of every registered reader that has one; the reader of the
      segmented log is not among the sources. *)
  reader_pointers : gmap string (N * N)
}.

(** [Writer(path, max_log_events)] on a directory that does not exist yet. *)
Definition init (max_log_events : N) : t :=
  {| env := ∅; logindex := []; max_log_events := max_log_events;
     _current_log := None; next_will_create_log := false;
     reader_pointers := ∅ |}.

(** [log.open(name, None, db.DB_RECNO, db.DB_CREATE)]: the database is
    created empty when the file does not exist. *)
Definition db_open (name : string) (e : gmap string (RecnoDB Bytes))
    : gmap string (RecnoDB Bytes) :=
  match e !! name with
  | Some _ => e
  | None => <[name := []]> e
  end.

Definition records (e : gmap string (RecnoDB Bytes)) (name : string)
    : RecnoDB Bytes :=
  default [] (e !! name).

(** In the branch that finds [logindex] empty the variable [idx] is never
    assigned; the rotation that reads it then raises. *)
Definition set_current_log (w : t) : Error + t :=
  let '(idx, name, li) :=
    match recno_last (logindex w) with
    | None =>
        let name := LOG_PREFIX ++ ".1" in
        (None, name, (recno_append (logindex w) name).2)
    | Some (idx, value) => (Some idx, value, logindex w)
    end in
  let e := db_open name (env w) in
  let opened (e : gmap string (RecnoDB Bytes)) (li : RecnoDB string)
      (name : string) : t :=
    {| env := e; logindex := li; max_log_events := max_log_events w;
       _current_log := Some name;
       next_will_create_log := next_will_create_log w;
       reader_pointers := reader_pointers w |} in
  match recno_last (records e name) with
  | Some (eidx, _) =>
      if bool_decide (max_log_events w ≤ eidx)%N then
        match idx with
        | Some idx =>
            let name := LOG_PREFIX ++ "." ++ pretty (idx + 1) in
            let li := (recno_append li name).2 in
            inr (opened (db_open name e) li name)
        | None => inl UnboundLocalError
        end
      else inr (opened e li name)
  | None => inr (opened e li name)
  end.

Definition append (w : t) (data : Data) : Error + t :=
  let w :=
    if next_will_create_log w then
      {| env := env w; logindex := logindex w;
         max_log_events := max_log_events w;
         _current_log := None;
         next_will_create_log := false;
         reader_pointers := reader_pointers w |}
    else w in
  let w' :=
    match _current_log w with
    | None => set_current_log w
    | Some _ => inr w
    end in
  match w' with
  | inl err => inl err
  | inr w =>
      match _current_log w with
      | Some name =>
          let '(idx, db) := recno_append (records (env w) name)
                                         (pickle_dumps data) in
          inr {| env := <[name := db]> (env w); logindex := logindex w;
                 max_log_events := max_log_events w;
                 _current_log := Some name;
                 next_will_create_log := bool_decide (max_log_events w ≤ idx)%N;
                 reader_pointers := reader_pointers w |}
      | None => inl UnboundLocalError
      end
  end.

(** Appending a list of payloads, one call each. *)
Definition appends (w : t) (ds : list Data) : Error + t :=
  foldl (λ r d, match r with inl err => inl err | inr w => append w d end)
        (inr w) ds.

(** The records of segment number [n], when [logindex] has it. *)
Definition segment (w : t) (n : N) : option (RecnoDB Bytes) :=
  match list_find (λ r, r.1 = n) (logindex w) with
  | Some (_, (_, name)) => Some (records (env w) name)
  | None => None
  end.

(** Numbering the records of a full run of appends into an empty segment. *)
Definition numbered (bs : list Bytes) : RecnoDB Bytes :=
  imap (λ i b, (N.of_nat (S i), b)) bs.

(** The writer while its first segment fills up with the records [bs]. *)
Definition filling (max : N) (bs : list Bytes) : t :=
  {| env := {[ LOG_PREFIX ++ ".1" := numbered bs ]};
     logindex := [(1, LOG_PREFIX ++ ".1")];
     max_log_events := max;
     _current_log := Some (LOG_PREFIX ++ ".1");
     next_will_create_log := bool_decide (max ≤ N.of_nat (length bs))%N;
     reader_pointers := ∅ |}.

(** The writer after the append of [b] that follows: the first segment keeps
    [bs], the second one starts with [b]. *)
Definition rotated (max : N) (bs : list Bytes) (b : Bytes) : t :=
  {| env := <[LOG_PREFIX ++ ".2" := [(1, b)]]>
              {[ LOG_PREFIX ++ ".1" := numbered bs ]};
     logindex := [(1, LOG_PREFIX ++ ".1"); (2, LOG_PREFIX ++ ".2")];
     max_log_events := max;
     _current_log := Some (LOG_PREFIX ++ ".2");
     next_will_create_log := bool_decide (max ≤ 1)%N;
     reader_pointers := ∅ |}.

(** Modelled from the spec: what [delete] calls the current writer target,
    the greatest segment of [logindex] (the one [set_current_log] opens). *)
Definition is_current (w : t) (n : N) : bool :=
  match recno_last (logindex w) with
  | Some (idx, _) => bool_decide (idx = n)
  | None => false
  end.

(** Modelled from the spec: a registered reader's progress pointer lies in
    segment [n]. *)
Definition reader_inside (w : t) (n : N) : bool :=
  bool_decide (map_Exists (λ _ p, p.1 = n) (reader_pointers w)).

(** Modelled from the spec: [Writer.delete], which the tests call, is not in
    [binlog/writer.py].  A segment that [logindex] does not have is
    not-found; the current writer target and a segment with a reader inside
    are in-use; otherwise the file of the segment and its [logindex] entry
    are removed. *)
Definition delete (w : t) (segment_number : N) : Error + t :=
  match list_find (λ r, r.1 = segment_number) (logindex w) with
  | None => inl NotFound
  | Some (_, (_, name)) =>
      if is_current w segment_number || reader_inside w segment_number
      then inl InUse
      else inr {| env := base.delete name (env w);
                  logindex := filter (λ r, r.1 ≠ segment_number) (logindex w);
                  max_log_events := max_log_events w;
                  _current_log := _current_log w;
                  next_will_create_log := next_will_create_log w;
                  reader_pointers := reader_pointers w |}
  end.

End WithConstants.

Arguments t : clear implicits.
Arguments mk {Bytes}.

End Writer.

(** * Concrete inputs used by the examples below *)

Module Examples.

(** An optional index whose cursor raises when it is asked to delete a pair
    without a primary key. *)
Definition test_index : Index :=
  {| mandatory := false;
     delete_no_pk := λ _ _ _, inl (ValueError "no primary key") |}.

Definition demo_model : Model :=
  {| _indexes := [("test", test_index)];
     index_db_format := λ n, "index_" ++ n |}.

Definition db : Connection :=
  {| model := demo_model; path := "/tmp/binlog"; kwargs := []; closed := false |}.

(** An optional index whose cursor ignores such a request. *)
Definition lenient_index : Index :=
  {| mandatory := false; delete_no_pk := λ _ _ ix, inr ix |}.

(** A connection whose model declares the one index [i], named "test". *)
Definition indexed_db (i : Index) : Connection :=
  {| model := {| _indexes := [("test", i)];
                 index_db_format := λ n, "index_" ++ n |};
     path := "/tmp/binlog"; kwargs := []; closed := false |}.

(** A connection whose model declares no index. *)
Definition plain_db : Connection :=
  {| model := {| _indexes := []; index_db_format := λ n, "index_" ++ n |};
     path := "/tmp/binlog"; kwargs := []; closed := false |}.

Definition kw : gmap string Value := {[ "test" := VText "data" ]}.

Definition no_readers : ReadersEnv := {| checkpoints := ∅ |}.

(** A store that has nothing in it. *)
Definition empty_store : Store :=
  {| data_env := {| config := ∅; entries := ∅; indexes := ∅ |};
     readers_env := no_readers |}.

(** A data environment whose counter is behind its entries: pk 0 is stored
    and [next_event_id] is absent. *)
Definition stale_counter_store : Store :=
  {| data_env := {| config := ∅; entries := {[ 0 := kw ]}; indexes := ∅ |};
     readers_env := no_readers |}.

(** The entry with pk 0, as [create] returns it on the empty store. *)
Definition entry0 : Entry := mark_as_saved (new_entry kw) 0.

(** The store after that [create]. *)
Definition created_store : Store :=
  {| data_env := {| config := {[ "next_event_id" := 1 ]};
                    entries := {[ 0 := kw ]};
                    indexes := {[ ("index_test", VText "data", 0) ]} |};
     readers_env := no_readers |}.

(** One stored entry (pk 0, indexed) and one reader that acknowledged it. *)
Definition acked_store : Store :=
  {| data_env := {| config := {[ "next_event_id" := 1 ]};
                    entries := {[ 0 := kw ]};
                    indexes := {[ ("index_test", VText "data", 0) ]} |};
     readers_env := {| checkpoints := {[ "myreader" := {[ 0 ]} ]} |} |}.

(** The same reader and acknowledgement, the entry already gone. *)
Definition acked_gone_store : Store :=
  {| data_env := {| config := {[ "next_event_id" := 1 ]};
                    entries := ∅; indexes := ∅ |};
     readers_env := {| checkpoints := {[ "myreader" := {[ 0 ]} ]} |} |}.

(** One stored entry and a reader that acknowledged nothing. *)
Definition unacked_store : Store :=
  {| data_env := {| config := {[ "next_event_id" := 1 ]};
                    entries := {[ 0 := kw ]};
                    indexes := {[ ("index_test", VText "data", 0) ]} |};
     readers_env := {| checkpoints := {[ "myreader" := ∅ ]} |} |}.

(** Scenario: two stored entries; readers r1 and r2 acknowledged pk 0, and
    only r1 acknowledged pk 1. *)
Definition two_readers_store : Store :=
  {| data_env := {| config := {[ "next_event_id" := 2 ]};
                    entries := {[ 0 := kw; 1 := kw ]};
                    indexes := ∅ |};
     readers_env := {| checkpoints := {[ "r1" := {[ 0; 1 ]}; "r2" := {[ 0 ]} ]} |} |}.

Definition two_readers_purged : Store :=
  {| data_env := {| config := {[ "next_event_id" := 2 ]};
                    entries := {[ 1 := kw ]};
                    indexes := ∅ |};
     readers_env := {| checkpoints := {[ "r1" := {[ 0; 1 ]}; "r2" := {[ 0 ]} ]} |} |}.

(** Two records with the same indexed key, under pks 0 and 1, both indexed,
    and one reader with the registry [acked]. *)
Definition both_pairs : gset (string * Value * N) :=
  {[ ("index_test", VText "data", 0); ("index_test", VText "data", 1) ]}.

Definition same_key_store (acked : Registry) : Store :=
  {| data_env := {| config := {[ "next_event_id" := 2 ]};
                    entries := {[ 0 := kw; 1 := kw ]};
                    indexes := both_pairs |};
     readers_env := {| checkpoints := {[ "myreader" := acked ]} |} |}.

(** That store with only the record [kept] left in entries, and the index
    pairs [ix]. *)
Definition same_key_purged (kept : N) (ix : gset (string * Value * N))
    (acked : Registry) : Store :=
  {| data_env := {| config := {[ "next_event_id" := 2 ]};
                    entries := {[ kept := kw ]};
                    indexes := ix |};
     readers_env := {| checkpoints := {[ "myreader" := acked ]} |} |}.

(** Three unsaved entries. *)
Definition three : list Entry :=
  [new_entry {[ "test" := VText "a" ]};
   new_entry {[ "test" := VText "b" ]};
   new_entry {[ "test" := VText "c" ]}].

(** The store after [bulk_create] of those three on the empty store. *)
Definition bulk_store : Store :=
  {| data_env := {| config := {[ "next_event_id" := 3 ]};
                    entries := {[ 0 := {[ "test" := VText "a" ]};
                                  1 := {[ "test" := VText "b" ]};
                                  2 := {[ "test" := VText "c" ]} ]};
                    indexes := ∅ |};
     readers_env := no_readers |}.

(** A writer whose payloads are numbers, pickled as themselves. *)
Definition writer (max_log_events : N) : Writer.t N :=
  Writer.init max_log_events.
Definition wappends (w : Writer.t N) (ds : list N) : Writer.Error + Writer.t N :=
  Writer.appends (λ d : N, d) "log" w ds.


(** Two segments of one record each, and a reader whose pointer is at the
    record of segment 1. *)
Definition two_segments : Writer.t N :=
  Writer.mk {[ "log.1" := [(1, 10)]; "log.2" := [(1, 11)] ]}
            [(1, "log.1"); (2, "log.2")] 1 (Some "log.2") true ∅.

Definition two_segments_read : Writer.t N :=
  Writer.mk {[ "log.1" := [(1, 10)]; "log.2" := [(1, 11)] ]}
            [(1, "log.1"); (2, "log.2")] 1 (Some "log.2") true
            {[ "test" := (1, 1) ]}.

End Examples.

(** * Further definitions: [binlog/util.py], the engine's operations as
    commands, and the layout of the segmented log *)

Module util.

(** [cmp(a, b)]: [(a > b) - (a < b)], the two comparisons as integers. *)
Definition cmp (a b : Z) : Z :=
  (Z.b2z (bool_decide (a > b)%Z) - Z.b2z (bool_decide (a < b)%Z))%Z.

Section popminleft.

(** The elements of the two deques are objects with an attribute [L]. *)
Context {A : Type}.
Variable L : A → Z.

(** [popminleft(a, b)]: the value returned, and the two deques afterwards
    ([popleft] takes the head of the deque away). *)
Definition popminleft (a b : list A) : option A * (list A * list A) :=
  match a, b with
  | x :: a', y :: b' =>
      if bool_decide (L x ≤ L y)%Z then (Some x, (a', b)) else (Some y, (a, b'))
  | x :: a', [] => (Some x, (a', b))
  | [], y :: b' => (Some y, (a, b'))
  | [], [] => (None, (a, b))
  end.

(** The values that [n] successive calls of [popminleft] return, up to the
    first [None]. *)
Fixpoint popminleft_calls (n : nat) (a b : list A) : list A :=
  match n with
  | O => []
  | S n' =>
      match popminleft a b with
      | (Some x, (a', b')) => x :: popminleft_calls n' a' b'
      | (None, _) => []
      end
  end.

End popminleft.

End util.

(** The operations of the engine that change the store, as commands, so
    that sequences of calls can be spoken of. *)
Inductive Op : Type :=
  | OpCreate (kwargs : gmap string Value)
  | OpBulkCreate (entries : list Entry)
  | OpRegisterReader (rname : string)
  | OpUnregisterReader (rname : string)
  | OpSaveRegistry (rname : string) (new_registry : Registry)
  | OpRemove (entry : Entry)
  | OpPurge.

(** The exception of a call, if it raised one. *)
Definition raised {A} (r : result A) : option Exc :=
  match r with
  | Ok _ => None
  | Raise e => Some e
  end.

(** One call on a connection: the exception it raised, if any, and the
    store it leaves. *)
Definition exec (self : Connection) (op : Op) (st : Store)
    : option Exc * Store :=
  match op with
  | OpCreate kwargs => prod_map raised id (create self kwargs st)
  | OpBulkCreate es => prod_map raised id (bulk_create self es st)
  | OpRegisterReader n => prod_map raised id (register_reader self n st)
  | OpUnregisterReader n => prod_map raised id (unregister_reader self n st)
  | OpSaveRegistry n r => prod_map raised id (save_registry self n r st)
  | OpRemove e => prod_map raised id (remove self e st)
  | OpPurge => prod_map raised id (purge self st)
  end.

(** The store after a sequence of calls, whatever each one returned. *)
Definition run (self : Connection) (ops : list Op) (st : Store) : Store :=
  foldl (λ st op, (exec self op st).2) st ops.

(** What [remove] comes to, in one case analysis on the store. *)
Definition remove_result (self : Connection) (entry : Entry) (st : Store)
    : result bool * Store :=
  let cp := checkpoints (readers_env st) in
  if decide (cp = ∅) then (Raise ReaderDoesNotExist, st)
  else
    match pk entry with
    | Some k =>
        if decide (acked_by_all cp k) then
          match entries (data_env st) !! k with
          | Some _ =>
              (Ok true,
               {| data_env :=
                    {| config := config (data_env st);
                       entries := delete k (entries (data_env st));
                       indexes :=
                         indexes (data_env st) ∖
                           index_pairs self (_indexes (model self)) entry |};
                  readers_env := readers_env st |})
          | None => (Ok false, st)
          end
        else (Ok false, st)
    | None => (Ok false, st)
    end.

(** The entry stored under [k] with fields [v], as a reader hands it out. *)
Definition stored_entry (k : N) (v : gmap string Value) : Entry :=
  mark_as_saved (new_entry v) k.

(** The operations that work on the data environment; the others work on
    the readers environment. *)
Definition on_data (op : Op) : bool :=
  match op with
  | OpCreate _ | OpBulkCreate _ | OpRemove _ | OpPurge => true
  | OpRegisterReader _ | OpUnregisterReader _ | OpSaveRegistry _ _ => false
  end.

(** The checkpoints after one call. *)
Definition checkpoints_after (op : Op) (cp : gmap string Registry)
    : gmap string Registry :=
  match op with
  | OpRegisterReader n =>
      match cp !! n with
      | Some _ => cp
      | None => <[n := ∅]> cp
      end
  | OpUnregisterReader n => delete n cp
  | OpSaveRegistry n r => <[n := default ∅ (cp !! n) ∪ r]> cp
  | _ => cp
  end.

Module MoreExamples.

(** A model with a mandatory index [name] after an optional index [test]. *)
Definition name_index : Index :=
  {| mandatory := true;
     delete_no_pk := λ _ _ _, inl (ValueError "no primary key") |}.

Definition strict_model : Model :=
  {| _indexes := [("test", Examples.test_index); ("name", name_index)];
     index_db_format := λ n, "index_" ++ n |}.

Definition strict_db : Connection :=
  {| model := strict_model; path := "/tmp/binlog"; kwargs := [];
     closed := false |}.

(** Create an entry, register a reader, acknowledge pk 0, remove the entry. *)
Definition lifecycle : list Op :=
  [OpRegisterReader "myreader"; OpSaveRegistry "myreader" {[ 0 ]};
   OpRemove Examples.entry0; OpPurge].

End MoreExamples.

Module UtilExamples.

(** Segments with a left and a right bound; [L] is the left one. *)
Definition left_bound (s : Z * Z) : Z := s.1.

Definition deque_a : list (Z * Z) := [(1, 2); (5, 5); (9, 12)]%Z.
Definition deque_b : list (Z * Z) := [(3, 4); (7, 8)]%Z.

End UtilExamples.

(** * The state that a writer leaves, and writers that come after it *)

Module Restart.

Section WithBytes.

Context {Bytes : Type}.

(** [Writer(path, max_log_events)] on the environment that the writer [w]
    leaves: the files and [logindex] are those of [w], no segment is open
    and the flag is clear. *)
Definition reopen (w : Writer.t Bytes) (max_log_events : N) : Writer.t Bytes :=
  {| Writer.env := Writer.env w;
     Writer.logindex := Writer.logindex w;
     Writer.max_log_events := max_log_events;
     Writer._current_log := None;
     Writer.next_will_create_log := false;
     Writer.reader_pointers := Writer.reader_pointers w |}.

(** Whether the last record of a segment has reached the capacity. *)
Definition is_full (w : Writer.t Bytes) (name : string) : bool :=
  match Writer.recno_last (Writer.records (Writer.env w) name) with
  | Some (eidx, _) => bool_decide (Writer.max_log_events w ≤ eidx)
  | None => false
  end.

(** The writer has a segment open, it is the last one of [logindex], its
    file exists, and the flag tells whether it is full. *)
Definition consistent (w : Writer.t Bytes) : Prop :=
  ∃ idx name,
    Writer.recno_last (Writer.logindex w) = Some (idx, name) ∧
    Writer._current_log w = Some name ∧
    is_Some (Writer.env w !! name) ∧
    Writer.next_will_create_log w = is_full w name.

End WithBytes.

End Restart.

(** * Where the records of a run of appends lie *)

Module Layout.

Section WithPrefix.

Context {Bytes : Type}.
Variable LOG_PREFIX : string.

(** The name that [set_current_log] gives to segment [j]. *)
Definition seg_name (j : nat) : string :=
  LOG_PREFIX ++ "." ++ pretty (N.of_nat j).

(** [logindex] with the segments 1 to [s]. *)
Definition index_upto (s : nat) : Writer.RecnoDB string :=
  map (λ j, (N.of_nat j, seg_name j)) (seq 1 s).

(** The number of records that a segment takes before the writer rotates:
    the capacity, and 1 when the capacity is 0. *)
Definition capacity (max_log_events : N) : nat :=
  N.to_nat (N.max 1 max_log_events).

(** The [j0]-th run (from 0) of [cap] records of [bs]. *)
Definition chunk (cap : nat) (bs : list Bytes) (j0 : nat) : list Bytes :=
  take cap (drop (j0 * cap) bs).

(** The writer holds the records [bs] in [s0] full segments followed by the
    current one, which has [c] records. *)
Record laid_out (w : Writer.t Bytes) (max : N) (bs : list Bytes)
    (s0 c : nat) : Prop := {
  lo_len : length bs = (s0 * capacity max + c)%nat;
  lo_c : (1 ≤ c ≤ capacity max)%nat;
  lo_index : Writer.logindex w = index_upto (S s0);
  lo_env : ∀ j0, (j0 ≤ s0)%nat →
    Writer.env w !! seg_name (S j0) =
      Some (Writer.numbered (chunk (capacity max) bs j0));
  lo_none : ∀ j, (S s0 < j)%nat → Writer.env w !! seg_name j = None;
  lo_cur : Writer._current_log w = Some (seg_name (S s0));
  lo_flag : Writer.next_will_create_log w =
              bool_decide (capacity max ≤ c)%nat;
  lo_max : Writer.max_log_events w = max
}.

End WithPrefix.

End Layout.

Module WriterExamples.

(** The payloads 0 to 19, as the test of multiple appends writes them. *)
Definition twenty : list N := map N.of_nat (seq 0 20).

(** A directory in which the file of the first segment holds one record,
    while [logindex] is empty; at most one record per segment. *)
Definition orphan_segment : Writer.t N :=
  Writer.mk {[ "log.1" := [(1, 10)] ]} [] 1 None false ∅.

End WriterExamples.
(** * Properties *)

(** ** Index maintenance leaves [config] and [entries] alone *)

Lemma _index_for_frame self ixs e d :
  config (_index_for self ixs e d).2 = config d ∧
  entries (_index_for self ixs e d).2 = entries d.
Proof.
  revert d. induction ixs as [|[n i] ixs IH]; intros d; simpl; [done|].
  destruct (get e n) as [k|].
  - unfold bind, IndexCursor.put. destruct (pk e); simpl.
    + by destruct (IH (set_indexes (λ ix, {[(_get_index_name self n, k, n0)]} ∪ ix) d))
        as [-> ->].
    + apply IH.
  - destruct (mandatory i); [done | apply IH].
Qed.

Lemma _unindex_for_spec self ixs e d k :
  pk e = Some k →
  _unindex_for self ixs e d =
    (Ok tt, set_indexes (λ ix, ix ∖ index_pairs self ixs e) d).
Proof.
  intros Hpk. revert d. induction ixs as [|[n i] ixs IH]; intros d; simpl.
  - unfold ret, set_indexes, index_pairs. destruct d as [c en ix]; simpl.
    do 2 f_equal. rewrite Hpk. simpl. set_solver.
  - destruct (get e n) as [key|] eqn:Hk.
    + unfold bind, IndexCursor.delete, index_pairs in *.
      rewrite Hpk in *. simpl.
      rewrite IH. destruct d as [c en ix]; unfold set_indexes; simpl.
      rewrite Hk; simpl. do 2 f_equal. set_solver.
    + rewrite IH. unfold index_pairs. rewrite Hpk. simpl. by rewrite Hk.
Qed.

(** Un-indexing leaves [config] and [entries] alone, whatever the cursors
    of the indexes do. *)
Lemma _unindex_for_frame self ixs e d :
  config (_unindex_for self ixs e d).2 = config d ∧
  entries (_unindex_for self ixs e d).2 = entries d.
Proof.
  revert d. induction ixs as [|[n i] ixs IH]; intros d; simpl; [done|].
  destruct (get e n) as [key|]; [|apply IH].
  unfold bind, IndexCursor.delete. destruct (pk e) as [k|]; simpl.
  - by destruct (IH (set_indexes (λ ix, ix ∖ {[(_get_index_name self n, key, k)]}) d))
      as [-> ->].
  - destruct (delete_no_pk i _ key (indexes d)) as [err|ix]; [done|].
    by destruct (IH (set_indexes (λ _, ix) d)) as [-> ->].
Qed.

Lemma elem_of_index_pairs self ixs e t :
  t ∈ index_pairs self ixs e ↔
  ∃ n i key k, (n, i) ∈ ixs ∧ get e n = Some key ∧ pk e = Some k ∧
               t = (_get_index_name self n, key, k).
Proof.
  unfold index_pairs. destruct (pk e) as [k|].
  - rewrite elem_of_list_to_set, list_elem_of_omap. split.
    + intros [[n i] [Hin Heq]]. destruct (get e n) as [key|] eqn:Hk; [|done].
      simpl in Heq. injection Heq as <-. by exists n, i, key, k.
    + intros (n & i & key & k' & Hin & Hk & [= <-] & ->).
      exists (n, i). by rewrite Hk.
  - split; [set_solver|]. by intros (? & ? & ? & ? & ? & ? & ? & ?).
Qed.

(** ** [create] *)

Lemma append_ok_spec k m :
  append_ok k m = true ↔ ∀ k' v, m !! k' = Some v → k' < k.
Proof. unfold append_ok. by rewrite bool_decide_eq_true. Qed.

(** The block of [create] when the append-mode put is accepted and the
    indexing raises nothing. *)
Lemma create_txn_inv self kwargs d e d' :
  create_txn self kwargs d = (Ok e, d') →
  append_ok (next_event_id d) (entries d) = true ∧
  e = mark_as_saved (new_entry kwargs) (next_event_id d) ∧
  config d' = <["next_event_id" := next_event_id d + 1]> (config d) ∧
  entries d' = <[next_event_id d := kwargs]> (entries d).
Proof.
  unfold create_txn, _get_next_event_idx, _update_next_event_idx,
    Config.get, Config.put, Entries.put, bind, gets, modify, ret, raise.
  fold (next_event_id d).
  destruct (append_ok (next_event_id d) (entries d)) eqn:Hok; [|done].
  unfold _index.
  pose proof (_index_for_frame self (_indexes (model self))
    (mark_as_saved (new_entry kwargs) (next_event_id d))
    (set_config (insert "next_event_id" (next_event_id d + 1))
       (set_entries (insert (next_event_id d) (copy (new_entry kwargs))) d)))
    as [Hc He].
  destruct (_index_for _ _ _ _) as [[[]|] d2]; [|done].
  intros [= <- <-]. simpl in *. by rewrite Hc, He.
Qed.

(** C3. Every successful [create] returns an entry with [saved = true]
    whose [pk] is the [next_event_id] read at the start of the call (0 when
    the key is absent), and the stored [next_event_id] is that pk plus one
    afterwards. *)
Theorem create_success self kwargs st e st' :
  create self kwargs st = (Ok e, st') →
  saved e = true ∧
  pk e = Some (next_event_id (data_env st)) ∧
  config (data_env st') !! "next_event_id" =
    Some (next_event_id (data_env st) + 1).
Proof.
  unfold create, data.
  destruct (create_txn self kwargs (data_env st)) as [[e1|err] d'] eqn:Hb;
    [|done].
  intros [= <- <-]. apply create_txn_inv in Hb as (_ & -> & Hc & _).
  simpl. rewrite Hc. by rewrite lookup_insert_eq.
Qed.

Lemma create_success_witness :
  create Examples.db Examples.kw Examples.empty_store =
    (Ok Examples.entry0, Examples.created_store) ∧
  saved Examples.entry0 = true ∧
  pk Examples.entry0 = Some (next_event_id (data_env Examples.empty_store)) ∧
  config (data_env Examples.created_store) !! "next_event_id" =
    Some (next_event_id (data_env Examples.empty_store) + 1).
Proof.
  split; [by vm_compute|].
  apply (create_success Examples.db Examples.kw Examples.empty_store
           Examples.entry0 Examples.created_store).
  by vm_compute.
Defined.

(** [create] does return an entry whenever the put is accepted and no
    mandatory index lacks its key. *)
Lemma _index_for_ok self ixs e d :
  (∀ n i, (n, i) ∈ ixs → mandatory i = true → is_Some (get e n)) →
  ∃ d', _index_for self ixs e d = (Ok tt, d').
Proof.
  revert d. induction ixs as [|[n i] ixs IH]; intros d Hm; simpl; [by eexists|].
  assert (∀ n i, (n, i) ∈ ixs → mandatory i = true → is_Some (get e n)) as Hm'.
  { intros n' i' Hin. apply Hm. by right. }
  destruct (get e n) as [k|] eqn:Hk.
  - unfold bind, IndexCursor.put. destruct (pk e); simpl; by apply IH.
  - destruct (mandatory i) eqn:Hi; [|by apply IH].
    destruct (Hm n i) as [? ?]; [by left|done|]. congruence.
Qed.

Lemma create_returns self kwargs st :
  append_ok (next_event_id (data_env st)) (entries (data_env st)) = true →
  (∀ n i, (n, i) ∈ _indexes (model self) → mandatory i = true →
          is_Some (kwargs !! n)) →
  ∃ st', create self kwargs st =
           (Ok (mark_as_saved (new_entry kwargs) (next_event_id (data_env st))),
            st').
Proof.
  intros Hok Hm. unfold create, data, create_txn, _get_next_event_idx,
    _update_next_event_idx, Config.get, Config.put, Entries.put, bind, gets,
    modify, ret, raise.
  fold (next_event_id (data_env st)). rewrite Hok. unfold _index.
  edestruct (_index_for_ok self (_indexes (model self))
    (mark_as_saved (new_entry kwargs) (next_event_id (data_env st))))
    as [d' ->]; [exact Hm|]. by eexists.
Qed.

(** What [create] does when the append-mode put is refused: the block
    writes the counter and raises; the scope aborts the transaction. *)
Lemma create_txn_refused self kwargs d :
  append_ok (next_event_id d) (entries d) = false →
  create_txn self kwargs d =
    (Raise (IntegrityError "Key already exists"),
     set_config (insert "next_event_id" (next_event_id d + 1)) d).
Proof.
  intros Hno. unfold create_txn, _get_next_event_idx, _update_next_event_idx,
    Config.get, Config.put, Entries.put, bind, gets, modify, ret, raise.
  fold (next_event_id d). by rewrite Hno.
Qed.

(** C1, as amended. When the entries put of [create] is refused, [create]
    raises the integrity error; the block had written the counter advanced by
    one, but the exception leaves the write transaction, which is aborted:
    the store, and with it the stored [next_event_id], is as before the
    call. *)
Theorem create_refused_rolls_back self kwargs st :
  append_ok (next_event_id (data_env st)) (entries (data_env st)) = false →
  create self kwargs st = (Raise (IntegrityError "Key already exists"), st) ∧
  next_event_id (create_txn self kwargs (data_env st)).2 =
    next_event_id (data_env st) + 1.
Proof.
  intros Hno. unfold create, data.
  rewrite (create_txn_refused _ _ _ Hno). split; [done|].
  simpl. unfold next_event_id at 1. simpl. by rewrite lookup_insert_eq.
Qed.

Lemma create_refused_rolls_back_witness :
  append_ok (next_event_id (data_env Examples.stale_counter_store))
            (entries (data_env Examples.stale_counter_store)) = false ∧
  create Examples.db Examples.kw Examples.stale_counter_store =
    (Raise (IntegrityError "Key already exists"), Examples.stale_counter_store) ∧
  next_event_id
    (create_txn Examples.db Examples.kw
       (data_env Examples.stale_counter_store)).2 =
    next_event_id (data_env Examples.stale_counter_store) + 1.
Proof.
  split; [by vm_compute|].
  apply (create_refused_rolls_back Examples.db Examples.kw
           Examples.stale_counter_store).
  by vm_compute.
Defined.

(** C1, as stated, fails: on a store that holds pk 0 and no counter, the put
    of key 0 is refused, [create] raises the integrity error, and the stored
    counter afterwards still reads 0, not 1. *)
Lemma create_refused_counter_not_advanced :
  let st := Examples.stale_counter_store in
  let '(r, st') := create Examples.db Examples.kw st in
  append_ok (next_event_id (data_env st)) (entries (data_env st)) = false ∧
  r = Raise (IntegrityError "Key already exists") ∧
  next_event_id (data_env st) = 0 ∧
  next_event_id (data_env st') = 0 ∧
  next_event_id (data_env st') ≠ next_event_id (data_env st) + 1.
Proof. vm_compute. repeat split; done. Qed.

(** ** [save_registry] *)

(** The registry stored for a reader, empty when the reader has none. *)
Lemma save_registry_eq self name delta st :
  save_registry self name delta st =
    (Ok true,
     {| data_env := data_env st;
        readers_env :=
          {| checkpoints :=
               <[name := default ∅ (checkpoints (readers_env st) !! name) ∪ delta]>
                 (checkpoints (readers_env st)) |} |}).
Proof.
  unfold save_registry, readers, bind, Checkpoints.get, Checkpoints.put, gets.
  simpl. by destruct (checkpoints (readers_env st) !! name).
Qed.

(** C7. [save_registry name delta] stores the union of the registry stored
    before (empty when absent) and [delta], and touches nothing else; saving
    the same registry twice leaves the store that saving it once leaves; and
    every pk stored as acknowledged before is still stored afterwards. *)
Theorem save_registry_union_idempotent_monotone self name delta st :
  let stored st := default ∅ (checkpoints (readers_env st) !! name) in
  let st1 := (save_registry self name delta st).2 in
  (save_registry self name delta st).1 = Ok true ∧
  checkpoints (readers_env st1) !! name = Some (stored st ∪ delta) ∧
  (∀ other, other ≠ name →
     checkpoints (readers_env st1) !! other =
     checkpoints (readers_env st) !! other) ∧
  data_env st1 = data_env st ∧
  (save_registry self name delta st1).2 = st1 ∧
  stored st ⊆ stored st1.
Proof.
  simpl. rewrite !save_registry_eq. simpl.
  rewrite lookup_insert_eq. simpl.
  repeat split.
  - intros other Hne. by rewrite lookup_insert_ne.
  - do 2 f_equal. rewrite insert_insert_eq. f_equal. set_solver.
  - set_solver.
Qed.

Lemma save_registry_union_idempotent_monotone_witness :
  "r1" ≠ "myreader" ∧
  (save_registry Examples.db "myreader" {[ 1 ]} Examples.acked_store).1 = Ok true ∧
  checkpoints (readers_env
      (save_registry Examples.db "myreader" {[ 1 ]} Examples.acked_store).2)
    !! "myreader" = Some ({[ 0 ]} ∪ {[ 1 ]}) ∧
  checkpoints (readers_env
      (save_registry Examples.db "myreader" {[ 1 ]} Examples.acked_store).2)
    !! "r1" = checkpoints (readers_env Examples.acked_store) !! "r1".
Proof.
  assert ("r1" ≠ "myreader") as Hne by done.
  split; [exact Hne|].
  destruct (save_registry_union_idempotent_monotone Examples.db "myreader"
              {[ 1 ]} Examples.acked_store) as (Hr & Hs & Ho & _).
  split; [exact Hr|]. split; [exact Hs|]. exact (Ho "r1" Hne).
Defined.

(** ** [remove] *)

Lemma list_readers_eq self st :
  list_readers self st = (Ok (elements (dom (checkpoints (readers_env st)))), st).
Proof. unfold list_readers, readers, Checkpoints.iternext, gets. by destruct st. Qed.

Lemma reader_registered self n r st :
  checkpoints (readers_env st) !! n = Some r →
  reader self (Some n) st = (Ok (mkReader self (Some n) (Some r)), st).
Proof.
  intros Hr. unfold reader, MaskException, readers, bind, Checkpoints.get,
    gets, ret, raise.
  by rewrite Hr.
Qed.

Lemma is_acked_spec self n r entry :
  is_acked (mkReader self n (Some r)) entry = true ↔ acked_in entry r.
Proof.
  unfold is_acked, acked_in. simpl. destruct (pk entry) as [k|].
  - rewrite bool_decide_eq_true. naive_solver.
  - naive_solver.
Qed.

(** The loop of [remove] over names that are all registered. *)
Lemma remove_for_all_acked self entry names orelse st :
  (∀ n, n ∈ names → ∃ r, checkpoints (readers_env st) !! n = Some r ∧
                          acked_in entry r) →
  remove_for self entry names orelse st = orelse st.
Proof.
  induction names as [|n names IH]; intros Hall; cbn [remove_for]; [done|].
  destruct (Hall n) as (r & Hr & Hack); [by left|].
  unfold bind. rewrite (reader_registered _ _ _ _ Hr).
  apply (is_acked_spec self (Some n)) in Hack. rewrite Hack.
  apply IH. intros n' Hn'. apply Hall. by right.
Qed.

Lemma remove_for_some_unacked self entry names orelse st n r :
  (∀ n, n ∈ names → is_Some (checkpoints (readers_env st) !! n)) →
  n ∈ names →
  checkpoints (readers_env st) !! n = Some r →
  ¬ acked_in entry r →
  remove_for self entry names orelse st = (Ok false, st).
Proof.
  induction names as [|n' names IH]; intros Hreg Hin Hr Hno; cbn [remove_for].
  - by apply elem_of_nil in Hin.
  - destruct (Hreg n') as [r' Hr']; [by left|].
    unfold bind. rewrite (reader_registered _ _ _ _ Hr').
    destruct (is_acked _ entry) eqn:Hack; [|done].
    apply is_acked_spec in Hack.
    apply elem_of_cons in Hin as [->|Hin].
    + congruence.
    + apply IH; [|done..]. intros n'' Hn''. apply Hreg. by right.
Qed.

(** C5. [remove] fails with reader-not-found when no reader is registered;
    when some registered reader's stored registry does not contain the
    entry's pk it returns false and the store (entries, indexes and all the
    rest) is as before. *)
Theorem remove_refused self entry st :
  (checkpoints (readers_env st) = ∅ →
     remove self entry st = (Raise ReaderDoesNotExist, st)) ∧
  (∀ name r, checkpoints (readers_env st) !! name = Some r →
     ¬ acked_in entry r →
     remove self entry st = (Ok false, st)).
Proof.
  split.
  - intros He. unfold remove, bind. rewrite list_readers_eq, He.
    by rewrite dom_empty_L, elements_empty.
  - intros name r Hr Hno. unfold remove, bind. rewrite list_readers_eq.
    assert (name ∈ elements (dom (checkpoints (readers_env st)))) as Hin.
    { apply elem_of_elements, elem_of_dom. by eexists. }
    destruct (elements (dom (checkpoints (readers_env st)))) as [|n0 ns] eqn:Hel.
    { by apply elem_of_nil in Hin. }
    eapply remove_for_some_unacked; [|exact Hin|exact Hr|exact Hno].
    intros n Hn. apply elem_of_dom. apply elem_of_elements. by rewrite Hel.
Qed.

Lemma remove_refused_witness :
  (checkpoints (readers_env Examples.empty_store) = ∅ ∧
   remove Examples.db Examples.entry0 Examples.empty_store =
     (Raise ReaderDoesNotExist, Examples.empty_store)) ∧
  (checkpoints (readers_env Examples.unacked_store) !! "myreader" = Some ∅ ∧
   ¬ acked_in Examples.entry0 ∅ ∧
   remove Examples.db Examples.entry0 Examples.unacked_store =
     (Ok false, Examples.unacked_store)).
Proof.
  split.
  - split; [done|].
    by apply (remove_refused Examples.db Examples.entry0 Examples.empty_store).
  - assert (¬ acked_in Examples.entry0 ∅) as Hno.
    { intros (k & _ & Hk). by apply not_elem_of_empty in Hk. }
    split; [by vm_compute|]. split; [exact Hno|].
    apply (remove_refused Examples.db Examples.entry0 Examples.unacked_store)
      with (name := "myreader") (r := ∅); [by vm_compute|exact Hno].
Defined.

(** The [else] branch of the loop in [remove]: pop, then un-index. *)
Lemma remove_else_present self entry st k v :
  pk entry = Some k →
  entries (data_env st) !! k = Some v →
  remove_else self entry st =
  (Ok true,
   {| data_env :=
        {| config := config (data_env st);
           entries := delete k (entries (data_env st));
           indexes := indexes (data_env st) ∖
                        index_pairs self (_indexes (model self)) entry |};
      readers_env := readers_env st |}).
Proof.
  intros Hpk Hv. unfold remove_else, data, bind, Entries.pop. rewrite Hpk, Hv.
  rewrite bool_decide_eq_true_2 by (by eexists).
  unfold _unindex. by rewrite (_unindex_for_spec _ _ _ _ k Hpk).
Qed.

Lemma remove_else_absent self entry st :
  (∀ k, pk entry = Some k → entries (data_env st) !! k = None) →
  remove_else self entry st =
  (Ok false, st).
Proof.
  intros Hno. unfold remove_else, data, bind, Entries.pop.
  destruct (pk entry) as [k|]; [rewrite (Hno k eq_refl)|];
    rewrite bool_decide_eq_false_2 by (by intros [? ?]);
    by destruct st.
Qed.

(** C6, as amended. With at least one registered reader and the entry's pk
    in every registered reader's stored registry, [remove] looks the pk up in
    entries.  When it is stored, [remove] deletes it, takes the pair
    (entry.get(i), entry.pk) out of every declared index [i] that has a key
    for the entry, leaves every other record alone, and returns true.  When
    it is not stored, [remove] returns false and the store is as before. *)
Theorem remove_acked self entry st k :
  checkpoints (readers_env st) ≠ ∅ →
  pk entry = Some k →
  (∀ name r, checkpoints (readers_env st) !! name = Some r → k ∈ r) →
  match entries (data_env st) !! k with
  | Some _ =>
      ∃ st', remove self entry st = (Ok true, st') ∧
        entries (data_env st') = delete k (entries (data_env st)) ∧
        (∀ i ix key, (i, ix) ∈ _indexes (model self) →
           get entry i = Some key →
           (_get_index_name self i, key, k) ∉ indexes (data_env st')) ∧
        (∀ t, t ∉ index_pairs self (_indexes (model self)) entry →
           t ∈ indexes (data_env st') ↔ t ∈ indexes (data_env st)) ∧
        config (data_env st') = config (data_env st) ∧
        readers_env st' = readers_env st
  | None => remove self entry st = (Ok false, st)
  end.
Proof.
  intros Hne Hpk Hall.
  assert (∀ orelse,
    match elements (dom (checkpoints (readers_env st))) with
    | [] => raise ReaderDoesNotExist
    | _ => remove_for self entry
             (elements (dom (checkpoints (readers_env st)))) orelse
    end st = orelse st) as Hloop.
  { intros orelse.
    destruct (elements (dom (checkpoints (readers_env st)))) as [|n0 ns] eqn:Hel.
    { apply elements_empty_inv, leibniz_equiv, dom_empty_inv_L in Hel. done. }
    apply remove_for_all_acked. intros n Hn.
    rewrite <- Hel in Hn. apply elem_of_elements, elem_of_dom in Hn as [r Hr].
    exists r. split; [done|]. exists k. split; [done|]. by eapply Hall. }
  unfold remove, bind. rewrite list_readers_eq, Hloop.
  destruct (entries (data_env st) !! k) as [v|] eqn:Hv.
  - rewrite (remove_else_present _ _ _ _ _ Hpk Hv). eexists. split; [done|].
    simpl. repeat split.
    + intros i ix key Hin Hkey. rewrite elem_of_difference.
      intros [_ Hnot]. apply Hnot. apply elem_of_index_pairs.
      by exists i, ix, key, k.
    + set_solver.
    + set_solver.
  - apply remove_else_absent. intros k' Hk'. congruence.
Qed.

Lemma remove_acked_witness :
  (checkpoints (readers_env Examples.acked_store) ≠ ∅ ∧
   pk Examples.entry0 = Some 0 ∧
   (∀ name r, checkpoints (readers_env Examples.acked_store) !! name = Some r →
              0 ∈ r)) ∧
  match entries (data_env Examples.acked_store) !! 0 with
  | Some _ =>
      ∃ st', remove Examples.db Examples.entry0 Examples.acked_store =
               (Ok true, st') ∧
        entries (data_env st') =
          delete 0 (entries (data_env Examples.acked_store)) ∧
        (∀ i ix key, (i, ix) ∈ _indexes (model Examples.db) →
           get Examples.entry0 i = Some key →
           (_get_index_name Examples.db i, key, 0) ∉ indexes (data_env st')) ∧
        (∀ t, t ∉ index_pairs Examples.db (_indexes (model Examples.db))
                    Examples.entry0 →
           t ∈ indexes (data_env st') ↔
           t ∈ indexes (data_env Examples.acked_store)) ∧
        config (data_env st') = config (data_env Examples.acked_store) ∧
        readers_env st' = readers_env Examples.acked_store
  | None => remove Examples.db Examples.entry0 Examples.acked_store =
              (Ok false, Examples.acked_store)
  end.
Proof.
  assert (checkpoints (readers_env Examples.acked_store) ≠ ∅) as H1.
  { intros He. apply (f_equal (λ m, m !! "myreader")) in He.
    vm_compute in He. discriminate He. }
  assert (∀ name r,
    checkpoints (readers_env Examples.acked_store) !! name = Some r → 0 ∈ r)
    as H2.
  { intros name r. simpl. intros [[= <-] [= <-]]%lookup_singleton_Some.
    by apply elem_of_singleton. }
  split; [done|].
  exact (remove_acked Examples.db Examples.entry0 Examples.acked_store 0
           H1 eq_refl H2).
Defined.

(** C6, as stated, fails: the only registered reader acknowledged pk 0, and
    [remove] of the entry with pk 0 returns false, because no record is
    stored under pk 0 any more. *)
Lemma remove_acked_returns_false :
  (∀ name r,
     checkpoints (readers_env Examples.acked_gone_store) !! name = Some r →
     acked_in Examples.entry0 r) ∧
  remove Examples.db Examples.entry0 Examples.acked_gone_store =
    (Ok false, Examples.acked_gone_store).
Proof.
  split; [|by vm_compute].
  intros name r. simpl. intros [[= <-] [= <-]]%lookup_singleton_Some.
  exists 0. split; [done|]. by apply elem_of_singleton.
Qed.

(** ** [bulk_create] *)

Lemma get_raw_lookup es next i :
  get_raw es next !! i =
    (λ e, (next + N.of_nat i, mark_as_saved e (next + N.of_nat i))) <$> es !! i.
Proof.
  revert next i. induction es as [|e es IH]; intros next [|i]; simpl; try done.
  - by rewrite N.add_0_r.
  - rewrite IH. destruct (es !! i); simpl; [|done].
    by replace (next + 1 + N.of_nat i) with (next + N.pos (Pos.of_succ_nat i)) by lia.
Qed.

Lemma length_get_raw es next : length (get_raw es next) = length es.
Proof.
  revert next. induction es as [|e es IH]; intros next; simpl; [done|].
  by rewrite IH.
Qed.

Lemma append_ok_succ k v m :
  append_ok k m = true → append_ok (k + 1) (<[k := v]> m) = true.
Proof.
  rewrite !append_ok_spec. intros Hm k' v'.
  rewrite lookup_insert. case_decide; [intros; lia|].
  intros Hk'. apply Hm in Hk'. lia.
Qed.

Lemma putmulti_counts items d :
  ∃ added d', Entries.putmulti items d = (Ok (length items, added), d') ∧
              (added ≤ length items)%nat.
Proof.
  revert d. induction items as [|[k v] items IH]; intros d; simpl.
  - by exists 0%nat, d.
  - unfold bind, Entries.put.
    destruct (append_ok k (entries d)).
    + destruct (IH (set_entries (insert k v) d)) as (a & d' & -> & Hle).
      exists (S a), d'. split; [done|lia].
    + destruct (IH d) as (a & d' & -> & Hle).
      exists a, d'. split; [done|lia].
Qed.

Lemma putmulti_accepts es next d :
  append_ok next (entries d) = true →
  Entries.putmulti (map (λ '(k, e), (k, copy e)) (get_raw es next)) d =
    (Ok (length es, length es), set_entries (stored_after es next) d).
Proof.
  revert next d. induction es as [|e es IH]; intros next d Hok; simpl.
  - by destruct d.
  - unfold bind, Entries.put. rewrite Hok.
    rewrite IH by (by apply append_ok_succ). by destruct d.
Qed.

Lemma putmulti_refuses e es next d :
  append_ok next (entries d) = false →
  ∃ added d',
    Entries.putmulti (map (λ '(k, e), (k, copy e)) (get_raw (e :: es) next)) d =
      (Ok (S (length es), added), d') ∧
    added ≠ S (length es).
Proof.
  intros Hno. simpl. unfold bind, Entries.put. rewrite Hno.
  destruct (putmulti_counts
    (map (λ '(k, e), (k, copy e)) (get_raw es (next + 1))) d)
    as (a & d' & Hp & Hle).
  rewrite Hp. rewrite length_map, length_get_raw in *.
  exists a, d'. split; [done|lia].
Qed.

Lemma stored_after_lt es next m k :
  k < next → stored_after es next m !! k = m !! k.
Proof.
  revert next m. induction es as [|e es IH]; intros next m Hk; simpl; [done|].
  rewrite IH by lia. rewrite lookup_insert_ne; [done|lia].
Qed.

Lemma stored_after_lookup es next m i e :
  es !! i = Some e →
  stored_after es next m !! (next + N.of_nat i) = Some (copy e).
Proof.
  revert next m i. induction es as [|e' es IH]; intros next m [|i] He;
    simpl in *; try done.
  - injection He as ->. rewrite N.add_0_r, stored_after_lt by lia.
    by rewrite lookup_insert_eq.
  - replace (next + N.of_nat (S i)) with (next + 1 + N.of_nat i) by lia.
    by apply IH.
Qed.

Lemma stored_after_ge es next m k :
  next + N.of_nat (length es) ≤ k → stored_after es next m !! k = m !! k.
Proof.
  revert next m. induction es as [|e es IH]; intros next m Hk; simpl in *;
    [done|].
  rewrite IH by lia. rewrite lookup_insert_ne; [done|lia].
Qed.

(** [bulk_create] when every entry is accepted. *)
Lemma bulk_create_accepted self es st :
  let next := next_event_id (data_env st) in
  es = [] ∨ append_ok next (entries (data_env st)) = true →
  ∃ st', bulk_create self es st = (Ok (length es), st') ∧
    next_event_id (data_env st') = next + N.of_nat (length es) ∧
    (∀ i e, es !! i = Some e →
       entries (data_env st') !! (next + N.of_nat i) = Some (copy e)) ∧
    (∀ k, k < next ∨ next + N.of_nat (length es) ≤ k →
       entries (data_env st') !! k = entries (data_env st) !! k) ∧
    indexes (data_env st') = indexes (data_env st) ∧
    readers_env st' = readers_env st.
Proof.
  intros next Hok.
  assert (Entries.putmulti (map (λ '(k, e), (k, copy e)) (get_raw es next))
            (data_env st) =
          (Ok (length es, length es),
           set_entries (stored_after es next) (data_env st))) as Hp.
  { destruct Hok as [->|Hok]; [by destruct st as [[] ?]|].
    by apply putmulti_accepts. }
  unfold bulk_create, data, bulk_create_txn, _get_next_event_idx,
    _update_next_event_idx, Config.get, Config.put, bind, gets, modify,
    ret, raise.
  fold (next_event_id (data_env st)). fold next. rewrite Hp.
  rewrite decide_False by (by intros ?). simpl.
  eexists. split; [done|]. simpl. repeat split.
  - unfold next_event_id. simpl. by rewrite lookup_insert_eq.
  - intros i e He. by apply stored_after_lookup.
  - intros k [Hk|Hk]; [by apply stored_after_lt|by apply stored_after_ge].
Qed.

(** C8, as amended. [bulk_create] numbers the entries consecutively from the
    current [next_event_id] and hands them to one append-mode multi-put; its
    block then writes the counter increased by the number of entries.  When
    every entry is accepted (the list is empty, or the first pk is greater
    than every stored pk) it returns their number, and the stored counter is
    increased by it, each entry is stored under its pk, and nothing else
    changes.  Otherwise it raises the integrity error, and the aborted
    transaction leaves the store, counter included, as before the call. *)
Theorem bulk_create_spec self es st :
  let next := next_event_id (data_env st) in
  (∀ i e, es !! i = Some e →
     get_raw es next !! i =
       Some (next + N.of_nat i, mark_as_saved e (next + N.of_nat i))) ∧
  next_event_id (bulk_create_txn self es (data_env st)).2 =
    next + N.of_nat (length es) ∧
  (es = [] ∨ append_ok next (entries (data_env st)) = true →
     ∃ st', bulk_create self es st = (Ok (length es), st') ∧
       next_event_id (data_env st') = next + N.of_nat (length es) ∧
       (∀ i e, es !! i = Some e →
          entries (data_env st') !! (next + N.of_nat i) = Some (copy e)) ∧
       (∀ k, k < next ∨ next + N.of_nat (length es) ≤ k →
          entries (data_env st') !! k = entries (data_env st) !! k) ∧
       indexes (data_env st') = indexes (data_env st) ∧
       readers_env st' = readers_env st) ∧
  (es ≠ [] → append_ok next (entries (data_env st)) = false →
     bulk_create self es st =
       (Raise (IntegrityError "Some key already exists"), st)).
Proof.
  intros next. split; [|split; [|split]].
  - intros i e He. by rewrite get_raw_lookup, He.
  - unfold bulk_create_txn, _get_next_event_idx, _update_next_event_idx,
      Config.get, Config.put, bind, gets, modify, ret, raise.
    fold (next_event_id (data_env st)). fold next.
    destruct (putmulti_counts
      (map (λ '(k, e), (k, copy e)) (get_raw es next)) (data_env st))
      as (a & d' & Hp & _).
    rewrite Hp, length_map, length_get_raw.
    destruct (decide (length es ≠ a)); simpl;
      unfold next_event_id; simpl; by rewrite lookup_insert_eq.
  - apply bulk_create_accepted.
  - intros Hne Hno. destruct es as [|e es]; [done|].
    destruct (putmulti_refuses e es next (data_env st) Hno)
      as (a & d' & Hp & Ha).
    unfold bulk_create, data, bulk_create_txn, _get_next_event_idx,
      _update_next_event_idx, Config.get, Config.put, bind, gets, modify,
      ret, raise.
    fold (next_event_id (data_env st)). fold next. rewrite Hp.
    rewrite decide_True by (by intros ?). done.
Qed.

Lemma bulk_create_spec_witness :
  ((Examples.three = [] ∨
    append_ok (next_event_id (data_env Examples.empty_store))
              (entries (data_env Examples.empty_store)) = true) ∧
   bulk_create Examples.db Examples.three Examples.empty_store =
     (Ok 3%nat, Examples.bulk_store)) ∧
  (Examples.three ≠ [] ∧
   append_ok (next_event_id (data_env Examples.stale_counter_store))
             (entries (data_env Examples.stale_counter_store)) = false ∧
   bulk_create Examples.db Examples.three Examples.stale_counter_store =
     (Raise (IntegrityError "Some key already exists"),
      Examples.stale_counter_store)).
Proof.
  split.
  - assert (Examples.three = [] ∨
            append_ok (next_event_id (data_env Examples.empty_store))
                      (entries (data_env Examples.empty_store)) = true) as H
      by (right; by vm_compute).
    split; [exact H|].
    destruct (proj1 (proj2 (proj2
      (bulk_create_spec Examples.db Examples.three Examples.empty_store))) H)
      as (st' & Heq & _).
    by vm_compute.
  - split; [done|]. split; [by vm_compute|].
    apply (bulk_create_spec Examples.db Examples.three
             Examples.stale_counter_store); [done|by vm_compute].
Defined.

(** The literal scenario of C8: three entries on an empty log. *)
Example bulk_create_three :
  bulk_create Examples.db Examples.three Examples.empty_store =
    (Ok 3%nat, Examples.bulk_store) ∧
  next_event_id (data_env Examples.bulk_store) = 3 ∧
  dom (entries (data_env Examples.bulk_store)) = {[ 0; 1; 2 ]}.
Proof. by vm_compute. Qed.

(** C8, as stated, fails where it says that the counter has been increased
    afterwards in every call: on a store that holds pk 0 and no counter, one
    entry is consumed and none accepted, [bulk_create] raises the integrity
    error, and the stored counter still reads 0 afterwards. *)
Lemma bulk_create_refused_counter_not_increased :
  let st := Examples.stale_counter_store in
  let es := [new_entry Examples.kw] in
  let '(r, st') := bulk_create Examples.db es st in
  (Entries.putmulti
     (map (λ '(k, e), (k, copy e)) (get_raw es (next_event_id (data_env st))))
     (data_env st)).1 = Ok (1%nat, 0%nat) ∧
  r = Raise (IntegrityError "Some key already exists") ∧
  next_event_id (data_env st) = 0 ∧
  next_event_id (data_env st') = 0 ∧
  next_event_id (data_env st') ≠ next_event_id (data_env st) + 1.
Proof. vm_compute. repeat split; done. Qed.

(** The engine keeps the counter above the stored pks: from such a store,
    [create] and [bulk_create] are never refused by the append mode and lead
    to such a store again.  The refusals above need a store that something
    else left with a counter not above its keys. *)
Lemma create_keeps_counter_above_keys self kwargs st :
  counter_above_keys (data_env st) →
  (∀ msg, (create self kwargs st).1 ≠ Raise (IntegrityError msg)) ∧
  counter_above_keys (data_env (create self kwargs st).2).
Proof.
  unfold counter_above_keys. intros Hok. unfold create, data.
  destruct (create_txn self kwargs (data_env st)) as [[e|err] d'] eqn:Hb.
  - split; [done|]. apply create_txn_inv in Hb as (_ & _ & Hc & He). simpl.
    unfold next_event_id at 1. rewrite Hc, He, lookup_insert_eq. simpl.
    by apply append_ok_succ.
  - split; [|done]. simpl. intros msg [= ->].
    revert Hb. unfold create_txn, _get_next_event_idx, _update_next_event_idx,
      Config.get, Config.put, Entries.put, bind, gets, modify, ret, raise.
    fold (next_event_id (data_env st)). rewrite Hok. unfold _index.
    generalize (_indexes (model self)).
    generalize (set_config (insert "next_event_id" (next_event_id (data_env st) + 1))
      (set_entries (insert (next_event_id (data_env st)) (copy (new_entry kwargs)))
         (data_env st))).
    intros d l. revert d. induction l as [|[n i] l IH]; intros d; simpl; [done|].
    unfold get at 1. simpl.
    destruct (kwargs !! n); [|destruct (mandatory i); [done|apply IH]].
    unfold bind, IndexCursor.put. simpl. apply IH.
Qed.

Lemma bulk_create_keeps_counter_above_keys self es st :
  counter_above_keys (data_env st) →
  (bulk_create self es st).1 = Ok (length es) ∧
  counter_above_keys (data_env (bulk_create self es st).2).
Proof.
  unfold counter_above_keys. intros Hok.
  destruct (bulk_create_accepted self es st (or_intror Hok))
    as (st' & -> & Hn & _ & Hk & _).
  split; [done|]. simpl. rewrite Hn. apply append_ok_spec. intros k v Hv.
  destruct (decide (k < next_event_id (data_env st) + N.of_nat (length es)))
    as [|Hge]; [done|].
  rewrite Hk in Hv by lia.
  apply (proj1 (append_ok_spec _ _) Hok) in Hv. lia.
Qed.

(** ** [purge] *)

Lemma purge_registries_eq self names st :
  (∀ n, n ∈ names → is_Some (checkpoints (readers_env st) !! n)) →
  purge_registries self names st =
    (Ok (map (λ n, default ∅ (checkpoints (readers_env st) !! n)) names), st).
Proof.
  induction names as [|n names IH]; intros Hreg; cbn [purge_registries map];
    [done|].
  destruct (Hreg n) as [r Hr]; [by left|].
  unfold bind. rewrite (reader_registered _ _ _ _ Hr).
  rewrite IH by (intros n' Hn'; apply Hreg; by right).
  by rewrite Hr.
Qed.

Lemma elem_of_reduce_and r0 rs k :
  k ∈ reduce_and r0 rs ↔ k ∈ r0 ∧ ∀ r, r ∈ rs → k ∈ r.
Proof.
  unfold reduce_and. revert r0. induction rs as [|r rs IH]; intros r0; simpl.
  - split; [|naive_solver]. intros Hk. split; [done|].
    intros r Hr. by apply elem_of_nil in Hr.
  - rewrite IH, elem_of_intersection. split.
    + intros [[H0 Hr] Hrs]. split; [done|]. intros r' [->|Hr']%elem_of_cons; auto.
    + intros [H0 Hall]. repeat split; [done|..].
      * apply Hall. by left.
      * intros r' Hr'. apply Hall. by right.
Qed.

Lemma filter_ext_elem_of {A} (P Q : A → Prop) `{!∀ x, Decision (P x)}
    `{!∀ x, Decision (Q x)} (l : list A) :
  (∀ x, x ∈ l → P x ↔ Q x) → filter P l = filter Q l.
Proof.
  induction l as [|x l IH]; intros Heq; [done|].
  rewrite !filter_cons.
  rewrite IH by (intros y Hy; apply Heq; by right).
  destruct (decide (P x)) as [HP|HP], (decide (Q x)) as [HQ|HQ]; try done;
    exfalso; apply (Heq x) in HP || apply (Heq x) in HQ; try done; by left.
Qed.

(** The loop of [purge] over pairwise distinct pks: it raises what a cursor
    of an index raises, or it pops every pk that has a record and counts
    it. *)
Lemma purge_for_cases self pks removed d :
  NoDup pks →
  (∃ e d', purge_for self pks removed 0%nat d = (Raise e, d')) ∨
  (∃ d', purge_for self pks removed 0%nat d =
           (Ok ((removed +
                 length (filter (λ k, is_Some (entries d !! k)) pks))%nat,
                0%nat), d') ∧
         config d' = config d ∧
         ∀ k, entries d' !! k =
              if decide (k ∈ pks) then None else entries d !! k).
Proof.
  revert removed d. induction pks as [|k pks IH]; intros removed d Hnd.
  - right. exists d. cbn [purge_for]. unfold ret.
    split; [by rewrite filter_nil, Nat.add_0_r|]. split; [done|].
    intros k. by destruct (decide (k ∈ [])) as [?%elem_of_nil|].
  - apply NoDup_cons in Hnd as [Hk Hnd].
    cbn [purge_for]. unfold bind, Entries.pop.
    destruct (entries d !! k) as [v|] eqn:Hv.
    + unfold _unindex.
      pose proof (_unindex_for_frame self (_indexes (model self))
                    (new_entry v) (set_entries (delete k) d)) as [Hc1 He1].
      destruct (_unindex_for self (_indexes (model self)) (new_entry v)
                  (set_entries (delete k) d)) as [[[]|err] d1];
        [|left; by eexists _, _].
      simpl in Hc1, He1.
      destruct (IH (S removed) d1 Hnd) as [(e & d' & Heq)|(d' & Heq & Hc & He)];
        [left; by eexists _, _|].
      right. exists d'. rewrite Heq. rewrite He1 in *.
      split; [|split; [by rewrite Hc, Hc1|]].
      * rewrite filter_cons_True by (by eexists). simpl.
        rewrite (filter_ext_elem_of
          (λ k0, is_Some (delete k (entries d) !! k0))
          (λ k0, is_Some (entries d !! k0))); [do 3 f_equal; lia|].
        intros k0 Hk0. rewrite lookup_delete_ne; [done|]. by intros ->.
      * intros k0. rewrite He.
        destruct (decide (k0 ∈ pks)) as [Hin|Hin].
        { rewrite decide_True; [done|]. by right. }
        destruct (decide (k0 = k)) as [->|Hne].
        { rewrite decide_True by (by left). by apply lookup_delete_None; left. }
        rewrite decide_False by (by intros [?|?]%elem_of_cons).
        by apply lookup_delete_ne.
    + destruct (IH removed d Hnd) as [(e & d' & Heq)|(d' & Heq & Hc & He)];
        [left; by eexists _, _|].
      right. exists d'. rewrite Heq. split; [|split; [done|]].
      * rewrite filter_cons_False; [done|]. rewrite Hv. by intros [? ?].
      * intros k0. rewrite He.
        destruct (decide (k0 ∈ pks)) as [Hin|Hin].
        { rewrite decide_True; [done|]. by right. }
        destruct (decide (k0 = k)) as [->|Hne].
        { by rewrite decide_True by (by left). }
        by rewrite decide_False by (by intros [?|?]%elem_of_cons).
Qed.

Lemma elem_of_registry_iter (r : Registry) k : k ∈ registry_iter r ↔ k ∈ r.
Proof.
  unfold registry_iter. rewrite merge_sort_Permutation. apply elem_of_elements.
Qed.

Lemma NoDup_registry_iter (r : Registry) : NoDup (registry_iter r).
Proof.
  unfold registry_iter. rewrite merge_sort_Permutation. apply NoDup_elements.
Qed.

(** Iteration over a registry is in ascending order. *)
Lemma registry_iter_sorted (r : Registry) : Sorted N.le (registry_iter r).
Proof. apply (Sorted_merge_sort N.le). Qed.

(** The registries that [purge] gathers are exactly the stored ones. *)
Lemma gathered_registries (cp : gmap string Registry) k :
  (∀ r, r ∈ map (λ n, default ∅ (cp !! n)) (elements (dom cp)) → k ∈ r) ↔
  acked_by_all cp k.
Proof.
  unfold acked_by_all. rewrite map_Forall_lookup. split.
  - intros Hall n r Hr. apply Hall. apply list_elem_of_fmap. exists n.
    rewrite Hr. split; [done|]. apply elem_of_elements, elem_of_dom. by eexists.
  - intros Hall r (n & -> & Hn)%list_elem_of_fmap.
    apply elem_of_elements, elem_of_dom in Hn as [r Hr]. rewrite Hr.
    by apply (Hall n).
Qed.

(** What [purge] comes to: the intersection of the stored registries is
    what its loop runs over. *)
Lemma purge_unfold self st :
  let cp := checkpoints (readers_env st) in
  (cp = ∅ → purge self st = (Ok (0%nat, 0%nat), st)) ∧
  (cp ≠ ∅ →
     ∃ common : Registry, (∀ k, k ∈ common ↔ acked_by_all cp k) ∧
       purge self st =
         data self true
           (purge_for self (registry_iter common) 0%nat 0%nat) st).
Proof.
  intros cp. unfold purge, bind. rewrite list_readers_eq.
  rewrite purge_registries_eq
    by (intros n Hn; by apply elem_of_dom, elem_of_elements).
  fold cp. pose proof (gathered_registries cp) as Hall. split.
  - intros ->. by rewrite dom_empty_L, elements_empty.
  - intros Hne.
    destruct (elements (dom cp)) as [|n0 ns] eqn:Hel; cbn [map] in *.
    { by apply elements_empty_inv, leibniz_equiv, dom_empty_inv_L in Hel. }
    eexists. split; [|done].
    intros k. rewrite elem_of_reduce_and, <- Hall. split.
    + intros [H0 Hrs] r [->|Hr]%elem_of_cons; auto.
    + intros Hr. split; [apply Hr; by left|].
      intros r Hin. apply Hr. by right.
Qed.

(** The parts of C2 that the code keeps.  [purge] either raises what the
    cursor of an index raises, and then the store is as before, or it
    returns a pair whose second component is 0: (0, 0) with nothing changed
    when no reader is registered, and otherwise the number of pks that are in
    every stored registry and were present in entries, those records being
    deleted from entries, and the counter and the checkpoints as before. *)
Lemma purge_cases self st :
  let cp := checkpoints (readers_env st) in
  (∃ e, purge self st = (Raise e, st)) ∨
  (∃ removed st', purge self st = (Ok (removed, 0%nat), st') ∧
     readers_env st' = readers_env st ∧
     config (data_env st') = config (data_env st) ∧
     (∀ k, entries (data_env st') !! k =
           if decide (cp ≠ ∅ ∧ acked_by_all cp k) then None
           else entries (data_env st) !! k) ∧
     removed =
       (if decide (cp = ∅) then 0%nat
        else size (filter (acked_by_all cp) (dom (entries (data_env st))))) ∧
     (cp = ∅ → st' = st)).
Proof.
  intros cp. destruct (purge_unfold self st) as [Hempty Hsome].
  fold cp in Hempty, Hsome.
  destruct (decide (cp = ∅)) as [He|Hne].
  - right. rewrite (Hempty He). exists 0%nat, st.
    split; [done|]. split; [done|]. split; [done|].
    split; [|done]. intros k. rewrite decide_False; [done|]. by intros [? _].
  - destruct (Hsome Hne) as (common & Hcommon & ->). unfold data.
    destruct (purge_for_cases self (registry_iter common) 0%nat (data_env st)
                (NoDup_registry_iter common))
      as [(e & d' & ->)|(d' & -> & Hc & He)]; [left; by exists e|].
    right. eexists _, _. split; [done|]. simpl.
    split; [done|]. split; [done|]. split; [|split; [|done]].
    + intros k. rewrite He.
      destruct (decide (k ∈ registry_iter common)) as [Hk|Hk];
        rewrite elem_of_registry_iter, Hcommon in Hk.
      * by rewrite decide_True.
      * rewrite decide_False; [done|]. by intros [_ ?].
    + rewrite <- (size_list_to_set (C := gset N))
        by apply NoDup_filter, NoDup_registry_iter.
      f_equal. apply set_eq. intros k.
      rewrite elem_of_list_to_set, list_elem_of_filter, elem_of_filter.
      by rewrite elem_of_registry_iter, Hcommon, elem_of_dom, (comm and).
Qed.

(** One turn of the loop of [purge] under one declared index: the record is
    popped and the cursor of the index is asked to delete (key, None). *)
Lemma purge_for_one_indexed (i : Index) p v key d :
  entries d !! p = Some v →
  v !! "test" = Some key →
  purge_for (Examples.indexed_db i) [p] 0%nat 0%nat d =
    match delete_no_pk i "index_test" key (indexes d) with
    | inl e => (Raise e, set_entries (delete p) d)
    | inr ix =>
        (Ok (1%nat, 0%nat), set_indexes (λ _, ix) (set_entries (delete p) d))
    end.
Proof.
  intros Hv Hkey. cbn [purge_for]. unfold bind, Entries.pop. rewrite Hv.
  unfold _unindex. cbn [Examples.indexed_db model _indexes _unindex_for].
  unfold get, new_entry at 1. cbn [fields]. rewrite Hkey.
  unfold bind, IndexCursor.delete. cbn [new_entry pk].
  change (_get_index_name _ "test") with "index_test".
  change (indexes (set_entries (delete p) d)) with (indexes d).
  by destruct (delete_no_pk i "index_test" key (indexes d)).
Qed.

(** [purge] on the store of two records with the same key, after the one
    reader acknowledged [p] alone. *)
Lemma purge_same_key (i : Index) (p q : N) :
  (p = 0 ∧ q = 1) ∨ (p = 1 ∧ q = 0) →
  purge (Examples.indexed_db i) (Examples.same_key_store {[ p ]}) =
    match delete_no_pk i "index_test" (VText "data") Examples.both_pairs with
    | inl e => (Raise e, Examples.same_key_store {[ p ]})
    | inr ix => (Ok (1%nat, 0%nat), Examples.same_key_purged q ix {[ p ]})
    end.
Proof.
  intros Hpq.
  destruct (purge_unfold (Examples.indexed_db i)
              (Examples.same_key_store {[ p ]})) as [_ Hsome].
  destruct Hsome as (common & Hcommon & ->).
  { cbn. apply insert_non_empty. }
  assert (common = {[ p ]}) as ->.
  { apply set_eq. intros k. rewrite Hcommon. cbn.
    unfold acked_by_all. by rewrite map_Forall_singleton. }
  assert (registry_iter {[ p ]} = [p]) as ->.
  { unfold registry_iter. by rewrite elements_singleton. }
  unfold data.
  rewrite (purge_for_one_indexed i p Examples.kw (VText "data"));
    [| destruct Hpq as [[-> ->]|[-> ->]]; by vm_compute | by vm_compute].
  change (indexes (data_env (Examples.same_key_store {[p]})))
    with Examples.both_pairs.
  destruct (delete_no_pk i "index_test" (VText "data") Examples.both_pairs)
    as [e|ix]; [done|].
  unfold Examples.same_key_purged, Examples.same_key_store, set_indexes,
    set_entries. cbn [data_env readers_env config entries indexes].
  do 3 f_equal.
  destruct Hpq as [[-> ->]|[-> ->]]; by vm_compute.
Qed.


(** Hence no cursor makes [purge] take out the pair of the purged pk in both
    runs. *)
Lemma purge_cannot_unindex_both (i : Index) :
  ¬ (purge (Examples.indexed_db i) (Examples.same_key_store {[ 0 ]}) =
       (Ok (1%nat, 0%nat),
        Examples.same_key_purged 1
          (Examples.both_pairs ∖ {[ ("index_test", VText "data", 0) ]})
          {[ 0 ]}) ∧
     purge (Examples.indexed_db i) (Examples.same_key_store {[ 1 ]}) =
       (Ok (1%nat, 0%nat),
        Examples.same_key_purged 0
          (Examples.both_pairs ∖ {[ ("index_test", VText "data", 1) ]})
          {[ 1 ]})).
Proof.
  rewrite (purge_same_key i 0 1) by (left; done).
  rewrite (purge_same_key i 1 0) by (right; done).
  destruct (delete_no_pk i "index_test" (VText "data") Examples.both_pairs)
    as [e|ix]; [by intros [? _]|].
  intros [H0 H1].
  apply (f_equal (λ r, indexes (data_env r.2))) in H0, H1.
  cbn [snd Examples.same_key_purged data_env indexes] in H0, H1.
  rewrite H0 in H1.
  apply (f_equal (λ s, bool_decide (("index_test", VText "data", 1) ∈ s)))
    in H1.
  by vm_compute in H1.
Qed.

(** The same on one record: a cursor that raises on such a request makes
    [purge] raise and delete nothing; a cursor that ignores it lets [purge]
    return (1, 0) and leaves the index pair of the deleted record behind. *)
Example purge_acked_store :
  purge Examples.db Examples.acked_store =
    (Raise (ValueError "no primary key"), Examples.acked_store) ∧
  purge (Examples.indexed_db Examples.lenient_index) Examples.acked_store =
    (Ok (1%nat, 0%nat),
     {| data_env := {| config := {[ "next_event_id" := 1 ]};
                       entries := ∅;
                       indexes := {[ ("index_test", VText "data", 0) ]} |};
        readers_env := readers_env Examples.acked_store |}).
Proof. split; by vm_compute. Qed.

(** The literal scenario, with no index declared: of two entries, the one
    that both readers acknowledged is purged. *)
Example purge_two_readers :
  purge Examples.plain_db Examples.two_readers_store =
    (Ok (1%nat, 0%nat), Examples.two_readers_purged).
Proof. by vm_compute. Qed.

(** ** [close] *)

Lemma _index_for_close self ixs e d :
  _index_for (close self) ixs e d = _index_for self ixs e d.
Proof.
  revert d. induction ixs as [|[n i] ixs IH]; intros d; cbn [_index_for];
    [done|].
  destruct (get e n); [|by destruct (mandatory i)].
  unfold bind. change (_get_index_name (close self) n)
    with (_get_index_name self n).
  by destruct (IndexCursor.put _ _ _ d) as [[[]|] ?].
Qed.

Lemma _unindex_for_close self ixs e d :
  _unindex_for (close self) ixs e d = _unindex_for self ixs e d.
Proof.
  revert d. induction ixs as [|[n i] ixs IH]; intros d; cbn [_unindex_for];
    [done|].
  destruct (get e n); [|apply IH].
  unfold bind. change (_get_index_name (close self) n)
    with (_get_index_name self n).
  by destruct (IndexCursor.delete _ _ _ _ d) as [[[]|] ?].
Qed.

Lemma create_close self kwargs st :
  create (close self) kwargs st = create self kwargs st.
Proof.
  unfold create, data, create_txn, _get_next_event_idx,
    _update_next_event_idx, Config.get, Config.put, Entries.put, bind, gets,
    modify, ret, raise, _index.
  change (model (close self)) with (model self).
  destruct (append_ok _ _); [|done]. by rewrite _index_for_close.
Qed.

Lemma bulk_create_close self es st :
  bulk_create (close self) es st = bulk_create self es st.
Proof. done. Qed.

Lemma reader_close self rname st :
  reader (close self) rname st =
    match reader self rname st with
    | (Ok r, st') => (Ok (mkReader (close self) (name r) (registry r)), st')
    | (Raise e, st') => (Raise e, st')
    end.
Proof.
  destruct rname as [n|]; [|done].
  unfold reader, MaskException, readers, bind, Checkpoints.get, gets, ret,
    raise.
  by destruct (checkpoints (readers_env st) !! n).
Qed.

Lemma remove_for_close self entry names orelse1 orelse2 st :
  (∀ st, orelse1 st = orelse2 st) →
  remove_for (close self) entry names orelse1 st =
  remove_for self entry names orelse2 st.
Proof.
  intros Hor. revert st.
  induction names as [|n names IH]; intros st; cbn [remove_for]; [done|].
  unfold bind. rewrite reader_close.
  destruct (reader self (Some n) st) as [[r|] st1]; [|done].
  replace (is_acked (mkReader (close self) (name r) (registry r)) entry)
    with (is_acked r entry) by done.
  destruct (is_acked r entry); [apply IH|done].
Qed.

Lemma remove_close self entry st :
  remove (close self) entry st = remove self entry st.
Proof.
  unfold remove, bind. change (list_readers (close self)) with (list_readers self).
  destruct (list_readers self st) as [[names|] st1]; [|done].
  destruct names as [|n names]; [done|].
  apply remove_for_close. intros st2.
  unfold remove_else, data, bind, _unindex.
  change (model (close self)) with (model self).
  destruct (Entries.pop _ _) as [[old|] d1]; [|done].
  case_bool_decide; [|done]. by rewrite _unindex_for_close.
Qed.

Lemma purge_registries_close self names st :
  purge_registries (close self) names st = purge_registries self names st.
Proof.
  revert st. induction names as [|n names IH]; intros st;
    cbn [purge_registries]; [done|].
  unfold bind. rewrite reader_close.
  destruct (reader self (Some n) st) as [[r|] st1]; [|done].
  by rewrite IH.
Qed.

Lemma purge_for_close self pks removed errors d :
  purge_for (close self) pks removed errors d =
  purge_for self pks removed errors d.
Proof.
  revert removed errors d.
  induction pks as [|k pks IH]; intros removed errors d; cbn [purge_for];
    [done|].
  unfold bind. destruct (Entries.pop _ d) as [[[v|]|] d1]; [|apply IH|done].
  unfold _unindex. change (model (close self)) with (model self).
  rewrite _unindex_for_close.
  destruct (_unindex_for _ _ _ d1) as [[[]|] d2]; [apply IH|done].
Qed.

Lemma purge_close self st : purge (close self) st = purge self st.
Proof.
  unfold purge, bind. change (list_readers (close self)) with (list_readers self).
  destruct (list_readers self st) as [[names|] st1]; [|done].
  rewrite purge_registries_close.
  destruct (purge_registries self names st1) as [[[|r0 rs]|] st2]; try done.
  unfold data. by rewrite purge_for_close.
Qed.

(** C10. [close] sets the [closed] flag and changes nothing else of the
    connection, and no operation of the engine reads the flag: [create],
    [bulk_create], [register_reader], [save_registry], [remove] and [purge]
    give the same result and the same store on the closed connection as on
    the open one, and [reader] gives the same reader, bound to the connection
    it is called on. *)
Theorem close_changes_only_the_flag self :
  (model (close self) = model self ∧ path (close self) = path self ∧
   kwargs (close self) = kwargs self ∧ closed (close self) = true) ∧
  (∀ kwargs st, create (close self) kwargs st = create self kwargs st) ∧
  (∀ es st, bulk_create (close self) es st = bulk_create self es st) ∧
  (∀ rname st,
     reader (close self) rname st =
       match reader self rname st with
       | (Ok r, st') => (Ok (mkReader (close self) (name r) (registry r)), st')
       | (Raise e, st') => (Raise e, st')
       end) ∧
  (∀ rname st,
     register_reader (close self) rname st = register_reader self rname st) ∧
  (∀ rname r st,
     save_registry (close self) rname r st = save_registry self rname r st) ∧
  (∀ entry st, remove (close self) entry st = remove self entry st) ∧
  (∀ st, purge (close self) st = purge self st).
Proof.
  split; [done|].
  split; [apply create_close|].
  split; [apply bulk_create_close|].
  split; [apply reader_close|].
  split; [done|].
  split; [done|].
  split; [apply remove_close|apply purge_close].
Qed.

(** * The segmented log writer *)

Section WriterFacts.

Context {Data Bytes : Type}.
Variable pickle_dumps : Data → Bytes.
Variable LOG_PREFIX : string.

Local Abbreviation append := (Writer.append pickle_dumps LOG_PREFIX).
Local Abbreviation appends := (Writer.appends pickle_dumps LOG_PREFIX).
Local Abbreviation filling := (Writer.filling LOG_PREFIX).
Local Abbreviation rotated := (Writer.rotated LOG_PREFIX).

Lemma numbered_snoc (bs : list Bytes) b :
  Writer.numbered (bs ++ [b])%list =
    (Writer.numbered bs ++ [(N.of_nat (S (length bs)), b)])%list.
Proof.
  unfold Writer.numbered. rewrite imap_app. simpl.
  by rewrite Nat.add_0_r.
Qed.

Lemma recno_last_numbered (bs : list Bytes) :
  bs ≠ [] →
  ∃ b, Writer.recno_last (Writer.numbered bs) = Some (N.of_nat (length bs), b).
Proof.
  destruct bs as [|b0 bs0] using rev_ind; [done|]. intros _.
  exists b0. unfold Writer.recno_last.
  rewrite numbered_snoc, last_snoc, length_app. simpl.
  by rewrite Nat.add_1_r.
Qed.

Lemma segment_names_differ : LOG_PREFIX ++ ".2" ≠ LOG_PREFIX ++ ".1".
Proof. intros H. by apply (inj (String.app LOG_PREFIX)) in H. Qed.

(** The first append on a fresh writer creates segment 1 and fills its first
    record. *)
Lemma append_init max d :
  append (Writer.init max) d = inr (filling max [pickle_dumps d]).
Proof.
  unfold Writer.append, Writer.set_current_log, Writer.filling. simpl.
  unfold Writer.db_open, Writer.records. simpl.
  rewrite lookup_empty.
  repeat (rewrite lookup_insert_eq; simpl).
  by rewrite insert_insert_eq, insert_empty.
Qed.

(** An append while the first segment has room: no rotation, the record
    goes to the end of segment 1, and the flag tells whether it filled it. *)
Lemma append_filling max bs d :
  bs ≠ [] → N.of_nat (length bs) < max →
  append (filling max bs) d = inr (filling max (bs ++ [pickle_dumps d])%list).
Proof.
  intros Hne Hlt. unfold Writer.append, Writer.filling. simpl.
  rewrite bool_decide_eq_false_2 by lia. simpl.
  unfold Writer.records. rewrite lookup_singleton_eq. simpl.
  destruct (recno_last_numbered bs Hne) as [b ->]. simpl.
  rewrite insert_singleton_eq, numbered_snoc, length_app. simpl.
  do 4 f_equal.
  - do 3 f_equal. lia.
  - apply bool_decide_ext. lia.
Qed.

(** The append that follows the one that filled segment 1: the deferred
    rotation happens now, and the record is the first one of segment 2. *)
Lemma append_full max bs d :
  bs ≠ [] → max ≤ N.of_nat (length bs) →
  append (filling max bs) d = inr (rotated max bs (pickle_dumps d)).
Proof.
  intros Hne Hle. unfold Writer.append, Writer.filling. simpl.
  rewrite bool_decide_eq_true_2 by lia. simpl.
  unfold Writer.set_current_log. simpl.
  unfold Writer.db_open, Writer.records.
  rewrite !lookup_singleton_eq. simpl.
  destruct (recno_last_numbered bs Hne) as [b ->].
  rewrite bool_decide_eq_true_2 by lia. simpl.
  change (pretty (1 + 1)) with "2".
  rewrite lookup_singleton_ne by apply not_eq_sym, segment_names_differ.
  simpl. rewrite lookup_insert_eq. simpl.
  rewrite insert_insert_eq. reflexivity.
Qed.

Lemma appends_snoc w ds d :
  appends w (ds ++ [d])%list =
    match appends w ds with
    | inl err => inl err
    | inr w' => append w' d
    end.
Proof. unfold Writer.appends. by rewrite foldl_app. Qed.

(** Up to [max_log_events] appends on a fresh writer all land in segment 1. *)
Lemma appends_filling max ds :
  ds ≠ [] → N.of_nat (length ds) ≤ max →
  appends (Writer.init max) ds = inr (filling max (map pickle_dumps ds)).
Proof.
  induction ds as [|d ds IH] using rev_ind; [done|]. intros _ Hlen.
  rewrite appends_snoc. rewrite length_app in Hlen. simpl in Hlen.
  destruct ds as [|d0 ds0].
  - simpl. apply append_init.
  - rewrite IH by (done || lia). rewrite map_app. simpl (map _ [d]).
    apply append_filling; [done|]. rewrite length_map. lia.
Qed.

(** C4, as amended. For a capacity [max_log_events] of at least 1 and a
    fresh writer: every one of the first [max_log_events] appends goes to
    segment 1, which is the only segment until then (the append that fills
    the segment places its record and only sets the flag); after exactly
    [max_log_events] appends segment 1 holds exactly [max_log_events]
    records and the flag is set; the next append performs the deferred
    rotation and its record is the first record of segment 2, segment 1
    keeping its records. *)
Theorem appends_rotation max ds d :
  1 ≤ max →
  N.of_nat (length ds) = max →
  (∀ k, (1 ≤ k ≤ length ds)%nat →
     ∃ w, appends (Writer.init max) (take k ds) = inr w ∧
          Writer.logindex w = [(1, LOG_PREFIX ++ ".1")] ∧
          Writer.segment w 1 =
            Some (Writer.numbered (map pickle_dumps (take k ds))) ∧
          Writer.next_will_create_log w = bool_decide (k = length ds)) ∧
  ∃ w1 w2,
    appends (Writer.init max) ds = inr w1 ∧
    Writer.segment w1 1 = Some (Writer.numbered (map pickle_dumps ds)) ∧
    length (Writer.numbered (map pickle_dumps ds)) = N.to_nat max ∧
    Writer.segment w1 2 = None ∧
    Writer.next_will_create_log w1 = true ∧
    appends (Writer.init max) (ds ++ [d])%list = inr w2 ∧
    Writer.logindex w2 = [(1, LOG_PREFIX ++ ".1"); (2, LOG_PREFIX ++ ".2")] ∧
    Writer.segment w2 1 = Some (Writer.numbered (map pickle_dumps ds)) ∧
    Writer.segment w2 2 = Some [(1, pickle_dumps d)].
Proof.
  intros Hmax Hlen.
  assert (ds ≠ []) as Hne by (intros ->; simpl in Hlen; lia).
  split.
  - intros k [Hk1 Hk2]. eexists. split.
    + apply appends_filling.
      * destruct ds, k; simpl; try done; lia.
      * rewrite length_take. lia.
    + simpl. split; [done|]. split.
      * unfold Writer.segment, Writer.records. simpl.
        by rewrite lookup_singleton_eq.
      * rewrite length_map, length_take. apply bool_decide_ext. lia.
  - exists (filling max (map pickle_dumps ds)),
           (rotated max (map pickle_dumps ds) (pickle_dumps d)).
    assert (map pickle_dumps ds ≠ []) as Hne' by (by destruct ds).
    split; [apply appends_filling; [done|lia]|].
    split; [unfold Writer.segment, Writer.records; simpl;
            by rewrite lookup_singleton_eq|].
    split; [unfold Writer.numbered; rewrite length_imap, length_map; lia|].
    split; [done|].
    split; [simpl; rewrite length_map; apply bool_decide_eq_true_2; lia|].
    split; [rewrite appends_snoc, appends_filling by (done || lia);
            apply append_full; [done|rewrite length_map; lia]|].
    split; [done|].
    split.
    + unfold Writer.segment, Writer.records. simpl.
      rewrite lookup_insert_ne by apply segment_names_differ.
      by rewrite lookup_singleton_eq.
    + unfold Writer.segment, Writer.records. simpl.
      by rewrite lookup_insert_eq.
Qed.

(** Whatever the state, an append that returns has put its record last in
    the segment that is current afterwards, and has only recorded in the flag
    whether that record reached the capacity: the rotation is left to the
    next call. *)
Lemma append_places_record (w w' : Writer.t Bytes) d :
  append w d = inr w' →
  ∃ name idx,
    Writer._current_log w' = Some name ∧
    Writer.recno_last (Writer.records (Writer.env w') name) =
      Some (idx, pickle_dumps d) ∧
    Writer.next_will_create_log w' =
      bool_decide (Writer.max_log_events w ≤ idx) ∧
    Writer.max_log_events w' = Writer.max_log_events w.
Proof.
  unfold Writer.append.
  set (w0 := if Writer.next_will_create_log w then _ else w).
  assert (Writer.max_log_events w0 = Writer.max_log_events w) as Hmax
    by (unfold w0; by destruct (Writer.next_will_create_log w)).
  destruct (match Writer._current_log w0 with
            | Some _ => inr w0
            | None => Writer.set_current_log LOG_PREFIX w0
            end) as [err|w1] eqn:Hw1; [done|].
  assert (Writer.max_log_events w1 = Writer.max_log_events w0) as Hmax1.
  { destruct (Writer._current_log w0); [by injection Hw1 as <-|].
    unfold Writer.set_current_log in Hw1.
    repeat (case_match; simplify_eq; try done). }
  destruct (Writer._current_log w1) as [name|] eqn:Hcur; [|done].
  intros [= <-]. exists name. eexists. simpl.
  unfold Writer.records. rewrite lookup_insert_eq. simpl.
  unfold Writer.recno_last at 1. rewrite last_snoc.
  split; [done|]. split; [done|]. split; [by rewrite Hmax1, Hmax|].
  congruence.
Qed.

End WriterFacts.

Lemma appends_rotation_witness :
  1 ≤ 2 ∧ N.of_nat (length [10; 11]) = 2 ∧
  ∃ w1 w2,
    Examples.wappends (Examples.writer 2) [10; 11] = inr w1 ∧
    Writer.segment w1 1 = Some [(1, 10); (2, 11)] ∧
    Writer.segment w1 2 = None ∧
    Writer.next_will_create_log w1 = true ∧
    Examples.wappends (Examples.writer 2) [10; 11; 12] = inr w2 ∧
    Writer.segment w2 1 = Some [(1, 10); (2, 11)] ∧
    Writer.segment w2 2 = Some [(1, 12)].
Proof.
  assert (1 ≤ 2) as H1 by lia.
  assert (N.of_nat (length [10; 11]) = 2) as H2 by reflexivity.
  split; [exact H1|]. split; [exact H2|].
  destruct (appends_rotation (λ d : N, d) "log" 2 [10; 11] 12 H1 H2)
    as (_ & w1 & w2 & Ha & Hs1 & _ & Hs12 & Hf & Hb & _ & Hs21 & Hs22).
  exists w1, w2. repeat split; assumption.
Defined.

(** C4, as stated, fails for the capacity 0: the first append, which is the
    (0+1)-th, is stored as the first record of segment 1, and there is no
    segment 2. *)
Lemma appends_capacity_zero :
  ∃ w, Examples.wappends (Examples.writer 0) [10] = inr w ∧
       Writer.segment w 1 = Some [(1, 10)] ∧
       Writer.segment w 2 = None.
Proof. eexists. by vm_compute. Qed.

(** ** [delete] *)

Section DeleteFacts.

Context {Bytes : Type}.
Implicit Types w : Writer.t Bytes.

Lemma is_current_spec w n :
  Writer.is_current w n = true ↔
  ∃ name, Writer.recno_last (Writer.logindex w) = Some (n, name).
Proof.
  unfold Writer.is_current.
  destruct (Writer.recno_last (Writer.logindex w)) as [[idx name]|].
  - rewrite bool_decide_eq_true. naive_solver.
  - naive_solver.
Qed.

Lemma reader_inside_spec w n :
  Writer.reader_inside w n = true ↔
  ∃ rname p, Writer.reader_pointers w !! rname = Some p ∧ p.1 = n.
Proof.
  unfold Writer.reader_inside. rewrite bool_decide_eq_true.
  apply map_Exists_lookup.
Qed.

Lemma is_current_listed w n :
  Writer.is_current w n = true → is_Some (Writer.segment w n).
Proof.
  intros [name Hl]%is_current_spec. unfold Writer.segment.
  destruct (list_find _ _) as [[i [n' name']]|] eqn:Hf; [by eexists|].
  apply list_find_None in Hf. apply last_Some_elem_of in Hl.
  rewrite Forall_forall in Hf. by destruct (Hf _ Hl).
Qed.

Lemma segment_filter_out w n :
  list_find (λ r : N * string, r.1 = n)
            (filter (λ r : N * string, r.1 ≠ n) (Writer.logindex w)) = None.
Proof.
  apply list_find_None, Forall_forall. intros r Hr.
  by apply list_elem_of_filter in Hr as [? _].
Qed.

(** C9. [delete n] fails with not-found when [logindex] has no segment [n];
    it fails with in-use when segment [n] is the one the writer targets, or
    when it exists and the progress pointer of a registered reader lies in
    it; otherwise it removes the file of the segment and its [logindex]
    entry, and leaves the other segments as they are. *)
Theorem delete_spec w n :
  (Writer.segment w n = None → Writer.delete w n = inl Writer.NotFound) ∧
  (Writer.is_current w n = true ∨
   (is_Some (Writer.segment w n) ∧
    ∃ rname p, Writer.reader_pointers w !! rname = Some p ∧ p.1 = n) →
   Writer.delete w n = inl Writer.InUse) ∧
  (∀ i name,
     list_find (λ r : N * string, r.1 = n) (Writer.logindex w)
       = Some (i, (n, name)) →
     Writer.is_current w n = false →
     (∀ rname p, Writer.reader_pointers w !! rname = Some p → p.1 ≠ n) →
     ∃ w', Writer.delete w n = inr w' ∧
           Writer.env w' = delete name (Writer.env w) ∧
           Writer.logindex w' =
             filter (λ r : N * string, r.1 ≠ n) (Writer.logindex w) ∧
           Writer.segment w' n = None ∧
           (∀ r, r.1 ≠ n → r ∈ Writer.logindex w' ↔ r ∈ Writer.logindex w)).
Proof.
  split; [|split].
  - unfold Writer.segment, Writer.delete.
    by destruct (list_find _ _) as [[i [n' name]]|].
  - intros Huse.
    assert (is_Some (Writer.segment w n)) as Hsome.
    { destruct Huse as [Hc|[Hs _]]; [by apply is_current_listed|done]. }
    assert (Writer.is_current w n || Writer.reader_inside w n = true) as Hor.
    { apply orb_true_iff. destruct Huse as [Hc|[_ Hr]]; [by left|right].
      by apply reader_inside_spec. }
    unfold Writer.segment, Writer.delete in *.
    destruct (list_find _ _) as [[i [n' name]]|]; [|by destruct Hsome].
    by rewrite Hor.
  - intros i name Hf Hcur Hno. unfold Writer.delete. rewrite Hf, Hcur.
    assert (Writer.reader_inside w n = false) as ->.
    { apply not_true_iff_false. intros (rname & p & Hp & Hn)%reader_inside_spec.
      by apply (Hno rname p). }
    simpl. eexists. split; [done|]. simpl. repeat split.
    + unfold Writer.segment. simpl. by rewrite segment_filter_out.
    + by intros [_ ?]%list_elem_of_filter.
    + intros Hr. by apply list_elem_of_filter.
Qed.

End DeleteFacts.

Lemma delete_spec_witness :
  (Writer.segment Examples.two_segments 3 = None ∧
   Writer.delete Examples.two_segments 3 = inl Writer.NotFound) ∧
  (Writer.is_current Examples.two_segments 2 = true ∧
   Writer.delete Examples.two_segments 2 = inl Writer.InUse) ∧
  (Examples.two_segments_read.(Writer.reader_pointers) !! "test" = Some (1, 1) ∧
   Writer.delete Examples.two_segments_read 1 = inl Writer.InUse) ∧
  (∃ w', Writer.delete Examples.two_segments 1 = inr w' ∧
         Writer.env w' = delete "log.1" (Writer.env Examples.two_segments) ∧
         Writer.logindex w' = [(2, "log.2")] ∧
         Writer.segment w' 1 = None).
Proof.
  split; [|split; [|split]].
  - split; [done|]. by apply (delete_spec Examples.two_segments 3).
  - split; [done|]. apply (delete_spec Examples.two_segments 2). by left.
  - split; [by vm_compute|].
    apply (delete_spec Examples.two_segments_read 1). right.
    split; [by eexists|]. exists "test", (1, 1). split; [by vm_compute|done].
  - destruct (proj2 (proj2 (delete_spec Examples.two_segments 1)) 0%nat "log.1")
      as (w' & Hd & He & Hl & Hs & _); [done|done| |].
    + intros rname p Hp. unfold Examples.two_segments in Hp. simpl in Hp.
      by rewrite lookup_empty in Hp.
    + exists w'. by repeat split.
Defined.

(** The tests of the writer: with capacity 1 and two appends, segment 1 can
    be deleted; after one append on a fresh writer, segment 1 cannot. *)
Example delete_unused_segment :
  ∃ w w', Examples.wappends (Examples.writer 1) [10; 11] = inr w ∧
          Writer.delete w 1 = inr w' ∧
          Writer.env w' !! "log.1" = None ∧
          Writer.env w' !! "log.2" = Some [(1, 11)].
Proof. do 2 eexists. by vm_compute. Qed.

Example delete_only_segment_refused :
  ∃ w, Examples.wappends (Examples.writer 10) [10] = inr w ∧
       Writer.delete w 1 = inl Writer.InUse.
Proof. eexists. by vm_compute. Qed.

(** * Further properties of the engine *)

(** ** Readers and their registries *)

Lemma reader_unregistered self n st :
  checkpoints (readers_env st) !! n = None →
  reader self (Some n) st = (Raise ReaderDoesNotExist, st).
Proof.
  intros Hr. unfold reader, MaskException, readers, bind, Checkpoints.get,
    gets, ret, raise.
  by rewrite Hr.
Qed.

Lemma reader_store self rname st : (reader self rname st).2 = st.
Proof.
  destruct rname as [n|]; [|done].
  destruct (checkpoints (readers_env st) !! n) as [r|] eqn:Hr.
  - by rewrite (reader_registered _ _ _ _ Hr).
  - by rewrite reader_unregistered.
Qed.

Lemma register_reader_eq self rname st :
  register_reader self rname st =
    match checkpoints (readers_env st) !! rname with
    | Some _ => (Ok false, st)
    | None =>
        (Ok true,
         {| data_env := data_env st;
            readers_env :=
              {| checkpoints := <[rname := ∅]> (checkpoints (readers_env st)) |} |})
    end.
Proof.
  unfold register_reader, readers, Checkpoints.put.
  destruct (checkpoints (readers_env st) !! rname); [by destruct st|done].
Qed.

Lemma unregister_reader_eq self rname st :
  unregister_reader self rname st =
    match checkpoints (readers_env st) !! rname with
    | Some _ =>
        (Ok true,
         {| data_env := data_env st;
            readers_env :=
              {| checkpoints := delete rname (checkpoints (readers_env st)) |} |})
    | None => (Raise ReaderDoesNotExist, st)
    end.
Proof.
  unfold unregister_reader, MaskException, readers, bind, Checkpoints.pop,
    ret, raise.
  by destruct (checkpoints (readers_env st) !! rname).
Qed.

(** X1. [register_reader] never overwrites: it returns whether the name was
    new, and afterwards [reader] loads for that name the registry that was
    stored before the call, or the empty one when there was none; the data
    environment and the other readers are as before. *)
Theorem register_reader_keeps_registry self rname st :
  let cp := checkpoints (readers_env st) in
  let st' := (register_reader self rname st).2 in
  (register_reader self rname st).1 = Ok (bool_decide (cp !! rname = None)) ∧
  reader self (Some rname) st' =
    (Ok (mkReader self (Some rname) (Some (default ∅ (cp !! rname)))), st') ∧
  delete rname (checkpoints (readers_env st')) = delete rname cp ∧
  data_env st' = data_env st.
Proof.
  simpl. rewrite register_reader_eq.
  destruct (checkpoints (readers_env st) !! rname) as [r|] eqn:Hr; simpl.
  - repeat split; [|done..]. by apply reader_registered.
  - repeat split.
    + apply reader_registered. simpl. apply lookup_insert_eq.
    + simpl. by rewrite delete_insert_eq.
Qed.



(** X3. [list_readers] changes nothing and returns every registered name
    exactly once: a name is in the list exactly when [reader] loads a reader
    for it. *)
Theorem list_readers_registered self st :
  ∃ names, list_readers self st = (Ok names, st) ∧ NoDup names ∧
    ∀ n, n ∈ names ↔ ∃ r, reader self (Some n) st = (Ok r, st).
Proof.
  rewrite list_readers_eq. eexists. split; [done|].
  split; [apply NoDup_elements|].
  intros n. rewrite elem_of_elements, elem_of_dom. split.
  - intros [r Hr]. eexists. by apply reader_registered.
  - intros [r Hr].
    destruct (checkpoints (readers_env st) !! n) eqn:Hn; [done|].
    by rewrite reader_unregistered in Hr.
Qed.

(** X4. Saving two registries for a reader, in either order, leaves the
    store that saving their union leaves, and [reader] then loads the union
    of the three: what was stored, and the two saved. *)
Theorem save_registry_merges self rname a b st :
  let stored := default ∅ (checkpoints (readers_env st) !! rname) in
  let st2 := (save_registry self rname b (save_registry self rname a st).2).2 in
  st2 = (save_registry self rname (a ∪ b) st).2 ∧
  st2 = (save_registry self rname a (save_registry self rname b st).2).2 ∧
  reader self (Some rname) st2 =
    (Ok (mkReader self (Some rname) (Some (stored ∪ a ∪ b))), st2).
Proof.
  simpl. rewrite !save_registry_eq. simpl.
  rewrite !lookup_insert_eq, !insert_insert_eq. simpl.
  repeat split.
  - do 3 f_equal. set_solver.
  - do 3 f_equal. set_solver.
  - apply reader_registered. simpl. by rewrite lookup_insert_eq.
Qed.

(** ** [remove] and [purge], in full *)

Lemma acked_by_all_spec (cp : gmap string Registry) k :
  acked_by_all cp k ↔ ∀ n r, cp !! n = Some r → k ∈ r.
Proof. unfold acked_by_all. apply map_Forall_lookup. Qed.

Lemma names_of_readers (cp : gmap string Registry) :
  cp ≠ ∅ → ∃ n ns, elements (dom cp) = n :: ns.
Proof.
  intros Hne. destruct (elements (dom cp)) as [|n ns] eqn:Hel; [|by eauto].
  by apply elements_empty_inv, leibniz_equiv, dom_empty_inv_L in Hel.
Qed.

Lemma remove_eq self entry st :
  remove self entry st = remove_result self entry st.
Proof.
  unfold remove_result. set (cp := checkpoints (readers_env st)).
  unfold remove, bind. rewrite list_readers_eq. fold cp.
  destruct (decide (cp = ∅)) as [He|Hne].
  { by rewrite He, dom_empty_L, elements_empty. }
  assert (∀ n, n ∈ elements (dom cp) ↔ is_Some (cp !! n)) as Hdom.
  { intros n. by rewrite elem_of_elements, elem_of_dom. }
  destruct (names_of_readers cp Hne) as (n0 & ns & Hel). rewrite Hel in *.
  assert (∀ n, n ∈ n0 :: ns → is_Some (cp !! n)) as Hreg
    by (intros n; apply Hdom).
  assert (∀ n r, cp !! n = Some r → ¬ acked_in entry r →
            remove_for self entry (n0 :: ns) (remove_else self entry) st
            = (Ok false, st)) as Hrefuse.
  { intros n r Hr Hno.
    eapply remove_for_some_unacked; [exact Hreg| |exact Hr|exact Hno].
    apply Hdom. by eexists. }
  destruct (pk entry) as [k|] eqn:Hpk.
  - destruct (decide (acked_by_all cp k)) as [Hall|Hnot].
    + rewrite remove_for_all_acked.
      * destruct (entries (data_env st) !! k) as [v|] eqn:Hv.
        -- by apply (remove_else_present self entry st k v).
        -- apply remove_else_absent. intros k' Hk'. congruence.
      * intros n Hn. destruct (Hreg n Hn) as [r Hr]. exists r.
        split; [done|]. exists k. split; [done|].
        by apply (proj1 (acked_by_all_spec cp k) Hall n).
    + apply map_not_Forall in Hnot; [|apply _].
      apply map_Exists_lookup in Hnot as (n & r & Hr & Hk).
      apply (Hrefuse n r Hr). intros (k' & Hk' & Hin). congruence.
  - destruct (Hreg n0) as [r Hr]; [by left|].
    apply (Hrefuse n0 r Hr). intros (k' & Hk' & _). congruence.
Qed.

(** X5. [remove] returns true exactly when a reader is registered, the
    entry's pk is in the stored registry of every registered reader, and a
    record is stored under that pk; it raises exactly when no reader is
    registered; and a second [remove] of an entry that was removed returns
    false and changes nothing. *)
Theorem remove_true_iff self entry st :
  let cp := checkpoints (readers_env st) in
  ((remove self entry st).1 = Ok true ↔
     cp ≠ ∅ ∧ ∃ k, pk entry = Some k ∧ acked_by_all cp k ∧
                   is_Some (entries (data_env st) !! k)) ∧
  ((remove self entry st).1 = Raise ReaderDoesNotExist ↔ cp = ∅) ∧
  ((remove self entry st).1 = Ok true →
     remove self entry (remove self entry st).2 =
       (Ok false, (remove self entry st).2)).
Proof.
  simpl. rewrite !remove_eq.
  destruct (decide (checkpoints (readers_env st) = ∅)) as [He|Hne].
  { assert (remove_result self entry st = (Raise ReaderDoesNotExist, st)) as ->
      by (unfold remove_result; by rewrite decide_True).
    simpl. split; [|split]; [|done..]. split; [done|]. by intros [? _]. }
  destruct (pk entry) as [k|] eqn:Hpk.
  2: { assert (remove_result self entry st = (Ok false, st)) as ->
         by (unfold remove_result; by rewrite decide_False, Hpk).
       simpl. split; [|split]; [|done..].
       split; [done|]. by intros (_ & k & ? & _). }
  destruct (decide (acked_by_all (checkpoints (readers_env st)) k))
    as [Hall|Hnot].
  2: { assert (remove_result self entry st = (Ok false, st)) as ->
         by (unfold remove_result;
             by rewrite decide_False, Hpk, decide_False).
       simpl. split; [|split]; [|done..].
       split; [done|]. intros (_ & k' & [= <-] & ? & _). done. }
  destruct (entries (data_env st) !! k) as [v|] eqn:Hv.
  2: { assert (remove_result self entry st = (Ok false, st)) as ->
         by (unfold remove_result;
             by rewrite decide_False, Hpk, decide_True, Hv).
       simpl. split; [|split]; [|done..].
       split; [done|]. intros (_ & k' & [= <-] & _ & [? ?]). congruence. }
  assert (∃ st1, remove_result self entry st = (Ok true, st1) ∧
            readers_env st1 = readers_env st ∧
            entries (data_env st1) !! k = None) as (st1 & -> & Hr1 & He1).
  { eexists. split.
    - unfold remove_result. by rewrite decide_False, Hpk, decide_True, Hv.
    - simpl. split; [done|apply lookup_delete_eq]. }
  simpl. split; [|split]; [|done|].
  - split; [|done]. intros _. split; [done|]. exists k. by rewrite Hv.
  - intros _. unfold remove_result.
    by rewrite Hr1, decide_False, Hpk, decide_True, He1.
Qed.

(** A [purge] loop over pks that have no record leaves the transaction's
    state alone. *)
Lemma purge_for_absent self pks removed d :
  (∀ k, k ∈ pks → entries d !! k = None) →
  purge_for self pks removed 0%nat d = (Ok (removed, 0%nat), d).
Proof.
  induction pks as [|k pks IH]; intros Hno; cbn [purge_for]; [done|].
  unfold bind, Entries.pop. rewrite (Hno k) by (by left).
  apply IH. intros k' Hk'. apply Hno. by right.
Qed.

(** X6. A second [purge] right after a [purge] that returned removes
    nothing: it returns (0, 0) and leaves the store as the first one left
    it. *)
Theorem purge_twice self st r st' :
  purge self st = (Ok r, st') →
  purge self st' = (Ok (0%nat, 0%nat), st').
Proof.
  intros Hp.
  destruct (purge_cases self st)
    as [[e Heq]|(removed & st0 & Heq & Hr & _ & He & _)];
    rewrite Heq in Hp; [done|]. injection Hp as <- <-.
  destruct (purge_unfold self st0) as [Hempty Hsome].
  rewrite Hr in Hempty, Hsome.
  destruct (decide (checkpoints (readers_env st) = ∅)) as [Hcp|Hcp].
  - by apply Hempty.
  - destruct (Hsome Hcp) as (common & Hcommon & ->). unfold data.
    rewrite purge_for_absent; [by destruct st0|].
    intros k Hk. rewrite elem_of_registry_iter, Hcommon in Hk.
    rewrite He. by rewrite decide_True.
Qed.

Lemma purge_twice_witness :
  purge Examples.plain_db Examples.two_readers_store =
    (Ok (1%nat, 0%nat), Examples.two_readers_purged) ∧
  purge Examples.plain_db Examples.two_readers_purged =
    (Ok (0%nat, 0%nat), Examples.two_readers_purged).
Proof.
  assert (purge Examples.plain_db Examples.two_readers_store =
            (Ok (1%nat, 0%nat), Examples.two_readers_purged)) as H
    by (vm_compute; reflexivity).
  split; [exact H|].
  exact (purge_twice Examples.plain_db Examples.two_readers_store _ _ H).
Defined.

(** X7. A [purge] that returns has deleted exactly the stored records that
    [remove] would delete: for a record stored under [k], [remove] of that
    entry returns true exactly when no record is stored under [k] after
    [purge]. *)
Theorem purge_deletes_what_remove_would self st k v r st' :
  entries (data_env st) !! k = Some v →
  purge self st = (Ok r, st') →
  (remove self (stored_entry k v) st).1 = Ok true ↔
  entries (data_env st') !! k = None.
Proof.
  intros Hv Hp.
  destruct (purge_cases self st)
    as [[e Heq]|(removed & st0 & Heq & _ & _ & He & _)];
    rewrite Heq in Hp; [done|]. injection Hp as <- <-.
  rewrite He, remove_eq. unfold remove_result. simpl.
  destruct (decide (checkpoints (readers_env st) = ∅)) as [Hcp|Hcp].
  - rewrite decide_False by (by intros [? _]). rewrite Hv. by split.
  - destruct (decide (acked_by_all (checkpoints (readers_env st)) k))
      as [Hall|Hnot].
    + rewrite decide_True by done. by rewrite Hv.
    + rewrite decide_False by (by intros [_ ?]). rewrite Hv. by split.
Qed.

Lemma purge_deletes_what_remove_would_witness :
  entries (data_env Examples.two_readers_store) !! 0 = Some Examples.kw ∧
  entries (data_env Examples.two_readers_store) !! 1 = Some Examples.kw ∧
  purge Examples.plain_db Examples.two_readers_store =
    (Ok (1%nat, 0%nat), Examples.two_readers_purged) ∧
  ((remove Examples.plain_db (stored_entry 0 Examples.kw)
      Examples.two_readers_store).1 = Ok true ↔
   entries (data_env Examples.two_readers_purged) !! 0 = None) ∧
  ((remove Examples.plain_db (stored_entry 1 Examples.kw)
      Examples.two_readers_store).1 = Ok true ↔
   entries (data_env Examples.two_readers_purged) !! 1 = None).
Proof.
  assert (entries (data_env Examples.two_readers_store) !! 0 = Some Examples.kw)
    as H0 by (vm_compute; reflexivity).
  assert (entries (data_env Examples.two_readers_store) !! 1 = Some Examples.kw)
    as H1 by (vm_compute; reflexivity).
  assert (purge Examples.plain_db Examples.two_readers_store =
            (Ok (1%nat, 0%nat), Examples.two_readers_purged)) as H
    by (vm_compute; reflexivity).
  split; [exact H0|]. split; [exact H1|]. split; [exact H|]. split.
  - exact (purge_deletes_what_remove_would Examples.plain_db
             Examples.two_readers_store 0 Examples.kw _ _ H0 H).
  - exact (purge_deletes_what_remove_would Examples.plain_db
             Examples.two_readers_store 1 Examples.kw _ _ H1 H).
Defined.

Lemma data_cases {A} self (body : Txn DataEnv A) st :
  (∃ a d', body (data_env st) = (Ok a, d') ∧
           data self true body st =
             (Ok a, {| data_env := d'; readers_env := readers_env st |})) ∨
  (∃ e d', body (data_env st) = (Raise e, d') ∧
           data self true body st = (Raise e, st)).
Proof.
  unfold data. destruct (body (data_env st)) as [[a|e] d'].
  - left. by exists a, d'.
  - right. by exists e, d'.
Qed.

Lemma create_cases self kwargs st :
  let next := next_event_id (data_env st) in
  (∃ e st', create self kwargs st = (Ok e, st') ∧
     e = mark_as_saved (new_entry kwargs) next ∧
     append_ok next (entries (data_env st)) = true ∧
     config (data_env st') = <["next_event_id" := next + 1]> (config (data_env st)) ∧
     entries (data_env st') = <[next := kwargs]> (entries (data_env st)) ∧
     readers_env st' = readers_env st) ∨
  (∃ e, create self kwargs st = (Raise e, st)).
Proof.
  intros next. unfold create.
  destruct (data_cases self (create_txn self kwargs) st)
    as [(e & d' & Hb & ->)|(e & d' & Hb & ->)].
  - left. apply create_txn_inv in Hb as (Hok & -> & Hc & He).
    eexists _, _. split; [done|]. by repeat split.
  - right. by exists e.
Qed.

Lemma bulk_create_cases self es st :
  let next := next_event_id (data_env st) in
  (∃ st', bulk_create self es st = (Ok (length es), st') ∧
     next_event_id (data_env st') = next + N.of_nat (length es) ∧
     (∀ k, next + N.of_nat (length es) ≤ k →
        entries (data_env st') !! k = entries (data_env st) !! k) ∧
     (es = [] ∨ append_ok next (entries (data_env st)) = true) ∧
     readers_env st' = readers_env st) ∨
  bulk_create self es st = (Raise (IntegrityError "Some key already exists"), st).
Proof.
  intros next.
  destruct es as [|e es].
  { left. destruct (bulk_create_accepted self [] st (or_introl eq_refl))
      as (st' & Heq & Hn & _ & Hk & _ & Hr).
    exists st'. repeat split; try done; [|by left].
    intros k Hk'. apply Hk. by right. }
  destruct (append_ok next (entries (data_env st))) eqn:Hok.
  - left. destruct (bulk_create_accepted self (e :: es) st (or_intror Hok))
      as (st' & Heq & Hn & _ & Hk & _ & Hr).
    exists st'. repeat split; try done; [|by right].
    intros k Hk'. apply Hk. by right.
  - right. destruct (putmulti_refuses e es next (data_env st) Hok)
      as (a & d' & Hp & Ha).
    unfold bulk_create, data, bulk_create_txn, _get_next_event_idx,
      _update_next_event_idx, Config.get, Config.put, bind, gets, modify,
      ret, raise.
    fold (next_event_id (data_env st)). fold next. rewrite Hp.
    by rewrite decide_True by (by intros ?).
Qed.

Lemma exec_checkpoints self op st :
  checkpoints (readers_env (exec self op st).2) =
    checkpoints_after op (checkpoints (readers_env st)).
Proof.
  destruct op as [kw|es|n|n|n r|e|]; simpl.
  - destruct (create_cases self kw st)
      as [(e & st' & Heq & _ & _ & _ & _ & Hr)|[e Heq]];
      rewrite Heq; simpl; by rewrite ?Hr.
  - destruct (bulk_create_cases self es st)
      as [(st' & Heq & _ & _ & _ & Hr)|Heq];
      rewrite Heq; simpl; by rewrite ?Hr.
  - rewrite register_reader_eq.
    by destruct (checkpoints (readers_env st) !! n).
  - rewrite unregister_reader_eq.
    destruct (checkpoints (readers_env st) !! n) eqn:Hn; [done|].
    simpl. by rewrite delete_id.
  - by rewrite save_registry_eq.
  - rewrite remove_eq. unfold remove_result.
    repeat (case_match; simpl; try done).
  - destruct (purge_cases self st)
      as [[err Heq]|(removed & st' & Heq & Hr & _)]; rewrite Heq; simpl;
      by rewrite ?Hr.
Qed.

Lemma exec_data_env self op st :
  on_data op = false → data_env (exec self op st).2 = data_env st.
Proof.
  destruct op as [kw|es|n|n|n r|e|]; simpl; try done; intros _.
  - rewrite register_reader_eq.
    by destruct (checkpoints (readers_env st) !! n).
  - rewrite unregister_reader_eq.
    by destruct (checkpoints (readers_env st) !! n).
  - by rewrite save_registry_eq.
Qed.

(** X8. [create], [bulk_create], [remove] and [purge] never change the
    checkpoints, and [register_reader], [unregister_reader] and
    [save_registry] never change the config, the entries or the indexes. *)
Theorem calls_keep_the_other_environment self op st :
  if on_data op
  then readers_env (exec self op st).2 = readers_env st
  else data_env (exec self op st).2 = data_env st.
Proof.
  destruct (on_data op) eqn:Hop; [|by apply exec_data_env].
  pose proof (exec_checkpoints self op st) as Hcp.
  destruct (readers_env (exec self op st).2) as [cp'].
  destruct (readers_env st) as [cp]. simpl in Hcp. f_equal.
  rewrite Hcp. by destruct op.
Qed.

(** One call other than unregistering [n] keeps the registry of [n], or
    grows it. *)
Lemma exec_keeps_acks self op st n r :
  op ≠ OpUnregisterReader n →
  checkpoints (readers_env st) !! n = Some r →
  ∃ r', checkpoints (readers_env (exec self op st).2) !! n = Some r' ∧ r ⊆ r'.
Proof.
  intros Hop Hr. rewrite exec_checkpoints.
  destruct op as [kw|es|n'|n'|n' r'|e|]; simpl; try by (exists r).
  - destruct (checkpoints (readers_env st) !! n') eqn:Hn'; [by exists r|].
    exists r. split; [|done]. rewrite lookup_insert_ne; [done|congruence].
  - exists r. split; [|done]. rewrite lookup_delete_ne; [done|congruence].
  - destruct (decide (n' = n)) as [->|Hne].
    + rewrite lookup_insert_eq, Hr. simpl. eexists. split; [done|set_solver].
    + exists r. by rewrite lookup_insert_ne.
Qed.

(** X9. Acknowledgements are never lost: whatever calls follow, as long as
    none of them unregisters the reader, the reader stays registered and
    every pk of its stored registry stays in it. *)
Theorem acks_persist self ops st n r :
  Forall (λ op, op ≠ OpUnregisterReader n) ops →
  checkpoints (readers_env st) !! n = Some r →
  ∃ r', checkpoints (readers_env (run self ops st)) !! n = Some r' ∧ r ⊆ r'.
Proof.
  intros Hops. revert st r.
  induction Hops as [|op ops Hop Hops IH]; intros st r Hr; simpl.
  - by exists r.
  - destruct (exec_keeps_acks self op st n r Hop Hr) as (r1 & Hr1 & Hsub).
    destruct (IH _ _ Hr1) as (r2 & Hr2 & Hsub2).
    exists r2. split; [done|]. set_solver.
Qed.

Lemma acks_persist_witness :
  Forall (λ op, op ≠ OpUnregisterReader "myreader")
    [OpSaveRegistry "myreader" {[ 1 ]}; OpRegisterReader "myreader";
     OpCreate Examples.kw; OpPurge] ∧
  checkpoints (readers_env Examples.acked_store) !! "myreader" = Some {[ 0 ]} ∧
  ∃ r', checkpoints (readers_env
          (run Examples.db
             [OpSaveRegistry "myreader" {[ 1 ]}; OpRegisterReader "myreader";
              OpCreate Examples.kw; OpPurge] Examples.acked_store))
          !! "myreader" = Some r' ∧ {[ 0 ]} ⊆ r'.
Proof.
  assert (Forall (λ op, op ≠ OpUnregisterReader "myreader")
    [OpSaveRegistry "myreader" {[ 1 ]}; OpRegisterReader "myreader";
     OpCreate Examples.kw; OpPurge]) as Hops
    by (repeat constructor; discriminate).
  assert (checkpoints (readers_env Examples.acked_store) !! "myreader"
          = Some {[ 0 ]}) as Hr by (by vm_compute).
  split; [exact Hops|]. split; [exact Hr|].
  exact (acks_persist Examples.db _ Examples.acked_store "myreader" {[ 0 ]}
           Hops Hr).
Defined.

(** X10. A call that raises leaves the whole store as it was. *)
Theorem raising_call_changes_nothing self op st e :
  (exec self op st).1 = Some e → (exec self op st).2 = st.
Proof.
  destruct op as [kw|es|n|n|n r|en|]; simpl.
  - destruct (create_cases self kw st)
      as [(e' & st' & Heq & _)|[e' Heq]]; by rewrite Heq.
  - destruct (bulk_create_cases self es st) as [(st' & Heq & _)|Heq];
      by rewrite Heq.
  - rewrite register_reader_eq.
    by destruct (checkpoints (readers_env st) !! n).
  - rewrite unregister_reader_eq.
    by destruct (checkpoints (readers_env st) !! n).
  - by rewrite save_registry_eq.
  - rewrite remove_eq. unfold remove_result.
    repeat (case_match; simpl; try done).
  - destruct (purge_cases self st)
      as [[err Heq]|(removed & st' & Heq & _)]; by rewrite Heq.
Qed.

Lemma raising_call_changes_nothing_witness :
  (exec Examples.db (OpCreate Examples.kw) Examples.stale_counter_store).1 =
    Some (IntegrityError "Key already exists") ∧
  (exec Examples.db (OpCreate Examples.kw) Examples.stale_counter_store).2 =
    Examples.stale_counter_store.
Proof.
  assert ((exec Examples.db (OpCreate Examples.kw)
             Examples.stale_counter_store).1 =
          Some (IntegrityError "Key already exists")) as H by (by vm_compute).
  split; [exact H|].
  exact (raising_call_changes_nothing Examples.db (OpCreate Examples.kw)
           Examples.stale_counter_store _ H).
Defined.

(** ** The primary-key counter *)

Lemma next_event_id_insert d v :
  default 0 (<["next_event_id" := v]> (config d) !! "next_event_id") = v.
Proof. by rewrite lookup_insert_eq. Qed.

(** One call never lowers the counter. *)
Lemma exec_counter self op st :
  next_event_id (data_env st) ≤ next_event_id (data_env (exec self op st).2).
Proof.
  destruct (on_data op) eqn:Hop; [|by rewrite exec_data_env].
  destruct op as [kw|es|n|n|n r|e|]; simpl; try done.
  - destruct (create_cases self kw st)
      as [(e & st' & Heq & _ & _ & Hc & _)|[e Heq]]; rewrite Heq; simpl;
      [|done].
    unfold next_event_id at 2. rewrite Hc, lookup_insert_eq. simpl. lia.
  - destruct (bulk_create_cases self es st)
      as [(st' & Heq & Hn & _)|Heq]; rewrite Heq; simpl; [|done].
    rewrite Hn. lia.
  - rewrite remove_eq. unfold remove_result.
    repeat (case_match; simpl; try done).
  - destruct (purge_cases self st)
      as [[err Heq]|(removed & st' & Heq & _ & Hc & _)]; rewrite Heq; simpl;
      [done|].
    unfold next_event_id. by rewrite Hc.
Qed.

Lemma run_counter self ops st :
  next_event_id (data_env st) ≤ next_event_id (data_env (run self ops st)).
Proof.
  revert st. induction ops as [|op ops IH]; intros st; simpl; [done|].
  etrans; [apply (exec_counter self op)|apply IH].
Qed.

(** X11. Primary keys are never reused: when [create] returns an entry and,
    after any sequence of further calls (removals and purges included),
    [create] returns another entry, the pk of the second is greater than the
    pk of the first. *)
Theorem pk_never_reused self kw1 kw2 ops st e1 st1 e2 st2 :
  create self kw1 st = (Ok e1, st1) →
  create self kw2 (run self ops st1) = (Ok e2, st2) →
  ∃ k1 k2, pk e1 = Some k1 ∧ pk e2 = Some k2 ∧ k1 < k2.
Proof.
  intros H1 H2.
  destruct (create_cases self kw1 st)
    as [(e & st' & Heq & -> & _ & Hc & _)|[e Heq]]; rewrite Heq in H1;
    [|done].
  injection H1 as <- <-.
  destruct (create_cases self kw2 (run self ops st'))
    as [(e' & st'' & Heq' & -> & _)|[e' Heq']]; rewrite Heq' in H2; [|done].
  injection H2 as <- <-.
  eexists _, _. split; [done|]. split; [done|].
  pose proof (run_counter self ops st') as Hle.
  unfold next_event_id at 1 in Hle. rewrite Hc, lookup_insert_eq in Hle.
  simpl in Hle. lia.
Qed.

Lemma pk_never_reused_witness :
  create Examples.db Examples.kw Examples.empty_store =
    (Ok Examples.entry0, Examples.created_store) ∧
  (∃ e2 st2,
     create Examples.db Examples.kw
       (run Examples.db MoreExamples.lifecycle Examples.created_store) =
       (Ok e2, st2) ∧
     entries (data_env (run Examples.db MoreExamples.lifecycle
                          Examples.created_store)) = ∅ ∧
     ∃ k1 k2, pk Examples.entry0 = Some k1 ∧ pk e2 = Some k2 ∧ k1 < k2).
Proof.
  assert (create Examples.db Examples.kw Examples.empty_store =
          (Ok Examples.entry0, Examples.created_store)) as H1 by (by vm_compute).
  split; [exact H1|].
  destruct (create Examples.db Examples.kw
              (run Examples.db MoreExamples.lifecycle Examples.created_store))
    as [[e2|err] st2] eqn:H2; [|by vm_compute in H2].
  exists e2, st2. split; [done|]. split; [by vm_compute|].
  exact (pk_never_reused Examples.db Examples.kw Examples.kw
           MoreExamples.lifecycle Examples.empty_store Examples.entry0
           Examples.created_store e2 st2 H1 H2).
Defined.

Lemma append_ok_shrink k (m m' : gmap N (gmap string Value)) :
  (∀ k', is_Some (m' !! k') → is_Some (m !! k')) →
  append_ok k m = true → append_ok k m' = true.
Proof.
  rewrite !append_ok_spec. intros Hsub Hm k' v Hv.
  destruct (Hsub k') as [v' Hv']; [by eexists|]. by eapply Hm.
Qed.

(** One call keeps the counter above the stored pks. *)
Lemma exec_keeps_counter_above_keys self op st :
  counter_above_keys (data_env st) →
  counter_above_keys (data_env (exec self op st).2).
Proof.
  intros Hinv.
  destruct (on_data op) eqn:Hop; [|by rewrite exec_data_env].
  destruct op as [kw|es|n|n|n r|e|]; simpl; try done.
  - by apply create_keeps_counter_above_keys.
  - by apply bulk_create_keeps_counter_above_keys.
  - rewrite remove_eq. unfold remove_result.
    repeat (case_match; simpl; try done).
    unfold counter_above_keys, next_event_id in *. simpl.
    eapply append_ok_shrink; [|exact Hinv].
    intros k' [v Hv]. apply lookup_delete_Some in Hv as [_ Hv]. by eexists.
  - destruct (purge_cases self st)
      as [[err Heq]|(removed & st' & Heq & _ & Hc & He & _)]; rewrite Heq; simpl;
      [done|].
    unfold counter_above_keys, next_event_id in *.
    rewrite Hc. eapply append_ok_shrink; [|exact Hinv].
    intros k'. rewrite He. destruct (decide _); [by intros [? ?]|done].
Qed.

Lemma run_keeps_counter_above_keys self ops st :
  counter_above_keys (data_env st) →
  counter_above_keys (data_env (run self ops st)).
Proof.
  revert st. induction ops as [|op ops IH]; intros st Hinv; simpl; [done|].
  by apply IH, exec_keeps_counter_above_keys.
Qed.

(** X12. From a store whose counter is above every stored pk (the empty
    store is one), no sequence of calls ever leads [create] or [bulk_create]
    to an integrity error: every call keeps the counter above the stored
    pks, so the append mode never refuses the key taken from the counter. *)
Theorem integrity_error_never_raised self ops kwargs es st msg :
  counter_above_keys (data_env st) →
  counter_above_keys (data_env (run self ops st)) ∧
  (create self kwargs (run self ops st)).1 ≠ Raise (IntegrityError msg) ∧
  (bulk_create self es (run self ops st)).1 = Ok (length es).
Proof.
  intros Hinv. apply (run_keeps_counter_above_keys self ops) in Hinv.
  split; [done|]. split.
  - by destruct (create_keeps_counter_above_keys self kwargs _ Hinv) as [Hno _].
  - by destruct (bulk_create_keeps_counter_above_keys self es _ Hinv) as [Hok _].
Qed.

Lemma integrity_error_never_raised_witness :
  counter_above_keys (data_env Examples.empty_store) ∧
  counter_above_keys
    (data_env (run Examples.db
                 (OpCreate Examples.kw :: OpBulkCreate Examples.three ::
                  MoreExamples.lifecycle) Examples.empty_store)) ∧
  (create Examples.db Examples.kw
     (run Examples.db
        (OpCreate Examples.kw :: OpBulkCreate Examples.three ::
         MoreExamples.lifecycle) Examples.empty_store)).1 ≠
    Raise (IntegrityError "Key already exists") ∧
  (bulk_create Examples.db Examples.three
     (run Examples.db
        (OpCreate Examples.kw :: OpBulkCreate Examples.three ::
         MoreExamples.lifecycle) Examples.empty_store)).1 =
    Ok (length Examples.three).
Proof.
  assert (counter_above_keys (data_env Examples.empty_store)) as H
    by (vm_compute; reflexivity).
  split; [exact H|].
  exact (integrity_error_never_raised Examples.db
           (OpCreate Examples.kw :: OpBulkCreate Examples.three ::
            MoreExamples.lifecycle)
           Examples.kw Examples.three Examples.empty_store
           "Key already exists" H).
Defined.

(** ** [create] and the indexes *)

Lemma index_pairs_cons self n i ixs e k :
  pk e = Some k →
  index_pairs self ((n, i) :: ixs) e =
    match get e n with
    | Some key => {[ (_get_index_name self n, key, k) ]} ∪ index_pairs self ixs e
    | None => index_pairs self ixs e
    end.
Proof.
  intros Hpk. unfold index_pairs. rewrite Hpk. simpl.
  by destruct (get e n).
Qed.

Lemma _index_for_inv self ixs e d d' k :
  pk e = Some k →
  _index_for self ixs e d = (Ok tt, d') →
  indexes d' = index_pairs self ixs e ∪ indexes d.
Proof.
  intros Hpk. revert d.
  induction ixs as [|[n i] ixs IH]; intros d; cbn [_index_for].
  - intros [= <-]. unfold index_pairs. rewrite Hpk. simpl. set_solver.
  - rewrite (index_pairs_cons _ _ _ _ _ _ Hpk).
    destruct (get e n) as [key|].
    + unfold bind, IndexCursor.put. rewrite Hpk. simpl.
      intros Hrest. apply IH in Hrest. rewrite Hrest. simpl. set_solver.
    + destruct (mandatory i); [done|]. apply IH.
Qed.

Lemma append_ok_fresh k (m : gmap N (gmap string Value)) :
  append_ok k m = true → m !! k = None.
Proof.
  rewrite append_ok_spec. intros Hm.
  destruct (m !! k) as [v|] eqn:Hv; [|done].
  apply Hm in Hv. lia.
Qed.

Lemma create_inv self kwargs st e st' :
  create self kwargs st = (Ok e, st') →
  let next := next_event_id (data_env st) in
  e = mark_as_saved (new_entry kwargs) next ∧
  entries (data_env st) !! next = None ∧
  st' = {| data_env :=
             {| config := <["next_event_id" := next + 1]> (config (data_env st));
                entries := <[next := kwargs]> (entries (data_env st));
                indexes := index_pairs self (_indexes (model self)) e ∪
                           indexes (data_env st) |};
           readers_env := readers_env st |}.
Proof.
  unfold create, data, create_txn, _get_next_event_idx,
    _update_next_event_idx, Config.get, Config.put, Entries.put, bind, gets,
    modify, ret, raise.
  fold (next_event_id (data_env st)).
  destruct (append_ok (next_event_id (data_env st)) (entries (data_env st)))
    eqn:Hok; [|done].
  unfold _index.
  destruct (_index_for _ _ _ _) as [[[]|] d2] eqn:Hix; [|done].
  intros [= <- <-]. simpl. split; [done|]. split; [by apply append_ok_fresh|].
  pose proof (_index_for_frame self (_indexes (model self))
    (mark_as_saved (new_entry kwargs) (next_event_id (data_env st)))
    (set_config (insert "next_event_id" (next_event_id (data_env st) + 1))
       (set_entries (insert (next_event_id (data_env st)) (copy (new_entry kwargs)))
          (data_env st)))) as [Hc He].
  rewrite Hix in Hc, He. simpl in Hc, He.
  apply (_index_for_inv _ _ _ _ _ (next_event_id (data_env st))) in Hix;
    [|done].
  simpl in Hix. destruct d2 as [c2 e2 i2]. simpl in *. by subst.
Qed.

(** X13. A successful [create] stores the fields under the new pk, under
    which nothing was stored, and for every declared index that the fields
    have a key for it puts the pair (key, pk) into that index; the other
    records, the other index pairs and the checkpoints are as before. *)
Theorem create_stores_and_indexes self kwargs st e st' :
  create self kwargs st = (Ok e, st') →
  let k := next_event_id (data_env st) in
  entries (data_env st) !! k = None ∧
  entries (data_env st') = <[k := kwargs]> (entries (data_env st)) ∧
  (∀ t, t ∈ indexes (data_env st') ↔
        t ∈ indexes (data_env st) ∨
        ∃ n i key, (n, i) ∈ _indexes (model self) ∧ kwargs !! n = Some key ∧
                   t = (_get_index_name self n, key, k)) ∧
  readers_env st' = readers_env st.
Proof.
  intros Hc. apply create_inv in Hc as (-> & Hfresh & ->). simpl.
  split; [done|]. split; [done|]. split; [|done].
  intros t. rewrite elem_of_union, elem_of_index_pairs. split.
  - intros [(n & i & key & k' & Hin & Hk & [= <-] & ->)|?]; [|by left].
    right. by exists n, i, key.
  - intros [?|(n & i & key & Hin & Hk & ->)]; [by right|].
    left. by exists n, i, key, (next_event_id (data_env st)).
Qed.

Lemma create_stores_and_indexes_witness :
  create Examples.db Examples.kw Examples.empty_store =
    (Ok Examples.entry0, Examples.created_store) ∧
  entries (data_env Examples.created_store) =
    <[next_event_id (data_env Examples.empty_store) := Examples.kw]>
      (entries (data_env Examples.empty_store)) ∧
  ("index_test", VText "data", 0) ∈ indexes (data_env Examples.created_store).
Proof.
  assert (create Examples.db Examples.kw Examples.empty_store =
          (Ok Examples.entry0, Examples.created_store)) as H by (by vm_compute).
  split; [exact H|].
  destruct (create_stores_and_indexes Examples.db Examples.kw
              Examples.empty_store _ _ H) as (_ & He & Hix & _).
  split; [exact He|]. apply Hix. right.
  exists "test", Examples.test_index, (VText "data").
  split; [by left|]. split; by vm_compute.
Defined.

Lemma _index_for_mandatory self l1 n i l2 e d :
  Forall (λ ni, mandatory ni.2 = true → is_Some (get e ni.1)) l1 →
  mandatory i = true → get e n = None →
  (_index_for self (l1 ++ (n, i) :: l2) e d).1 =
    Raise (ValueError ("value " ++ n ++ " is mandatory")).
Proof.
  intros Hl1 Hm Hn. revert d.
  induction Hl1 as [|[n' i'] l1 Hhd Hl1 IH]; intros d; cbn [_index_for app].
  - by rewrite Hn, Hm.
  - simpl in Hhd. destruct (get e n') as [key|] eqn:Hk.
    + unfold bind. destruct (IndexCursor.put _ _ _ d) as [[[]|] d1] eqn:Hp.
      * apply IH.
      * unfold IndexCursor.put in Hp. by destruct (pk e).
    + destruct (mandatory i'); [by destruct Hhd|apply IH].
Qed.

(** X14. When the append is accepted but the fields lack the key of a
    mandatory index (the first such index in declaration order being [n]),
    [create] raises the value error that names [n], and nothing is stored:
    neither the record, nor the counter, nor the index pairs written for the
    indexes before [n]. *)
Theorem create_mandatory_missing self kwargs st l1 n i l2 :
  _indexes (model self) = (l1 ++ (n, i) :: l2)%list →
  Forall (λ ni, mandatory ni.2 = true → is_Some (kwargs !! ni.1)) l1 →
  mandatory i = true →
  kwargs !! n = None →
  append_ok (next_event_id (data_env st)) (entries (data_env st)) = true →
  create self kwargs st =
    (Raise (ValueError ("value " ++ n ++ " is mandatory")), st).
Proof.
  intros Hix Hl1 Hm Hn Hok.
  unfold create, data, create_txn, _get_next_event_idx,
    _update_next_event_idx, Config.get, Config.put, Entries.put, bind, gets,
    modify, ret, raise.
  fold (next_event_id (data_env st)). rewrite Hok. unfold _index. rewrite Hix.
  pose proof (_index_for_mandatory self l1 n i l2
    (mark_as_saved (new_entry kwargs) (next_event_id (data_env st)))
    (set_config (insert "next_event_id" (next_event_id (data_env st) + 1))
       (set_entries (insert (next_event_id (data_env st)) (copy (new_entry kwargs)))
          (data_env st))) Hl1 Hm Hn) as Hr.
  destruct (_index_for _ _ _ _) as [[[]|err] d2]; simpl in Hr; [done|].
  by injection Hr as ->.
Qed.

Lemma create_mandatory_missing_witness :
  _indexes (model MoreExamples.strict_db) =
    ([("test", Examples.test_index)] ++
     ("name", MoreExamples.name_index) :: [])%list ∧
  Examples.kw !! "name" = None ∧
  append_ok (next_event_id (data_env Examples.empty_store))
            (entries (data_env Examples.empty_store)) = true ∧
  create MoreExamples.strict_db Examples.kw Examples.empty_store =
    (Raise (ValueError "value name is mandatory"), Examples.empty_store).
Proof.
  split; [done|]. split; [by vm_compute|]. split; [by vm_compute|].
  apply (create_mandatory_missing MoreExamples.strict_db Examples.kw
           Examples.empty_store [("test", Examples.test_index)]
           "name" MoreExamples.name_index []);
    [done| |done|by vm_compute|by vm_compute].
  constructor; [|constructor]. simpl. discriminate.
Defined.

(** X15. [create] followed by [remove] of the returned entry, once every
    registered reader has acknowledged its pk, gives back the entries and
    the indexes as they were before the [create] (no index pair carried that
    pk), while the counter stays advanced. *)
Theorem create_then_remove self kwargs st e st1 st2 :
  create self kwargs st = (Ok e, st1) →
  data_env st2 = data_env st1 →
  checkpoints (readers_env st2) ≠ ∅ →
  acked_by_all (checkpoints (readers_env st2)) (next_event_id (data_env st)) →
  (∀ db key, (db, key, next_event_id (data_env st)) ∉ indexes (data_env st)) →
  ∃ st3, remove self e st2 = (Ok true, st3) ∧
    entries (data_env st3) = entries (data_env st) ∧
    indexes (data_env st3) = indexes (data_env st) ∧
    next_event_id (data_env st3) = next_event_id (data_env st) + 1 ∧
    readers_env st3 = readers_env st2.
Proof.
  intros Hc Hd Hne Hack Hfresh.
  apply create_inv in Hc as (-> & Hnone & ->).
  rewrite remove_eq. unfold remove_result. simpl.
  rewrite decide_False by done. rewrite decide_True by done.
  rewrite Hd. simpl. rewrite lookup_insert_eq.
  eexists. split; [done|]. simpl. repeat split.
  - by rewrite delete_insert_eq, delete_id.
  - apply set_eq. intros t.
    rewrite elem_of_difference, elem_of_union, elem_of_index_pairs.
    split; [intros [[?|?] ?]; done|]. intros Ht. split; [by right|].
    intros (n & i & key & k' & _ & _ & [= <-] & ->). by apply Hfresh in Ht.
  - unfold next_event_id at 1. simpl. by rewrite lookup_insert_eq.
Qed.

Lemma create_then_remove_witness :
  create Examples.db Examples.kw Examples.empty_store =
    (Ok Examples.entry0, Examples.created_store) ∧
  data_env Examples.acked_store = data_env Examples.created_store ∧
  ∃ st3, remove Examples.db Examples.entry0 Examples.acked_store =
           (Ok true, st3) ∧
    entries (data_env st3) = entries (data_env Examples.empty_store) ∧
    indexes (data_env st3) = indexes (data_env Examples.empty_store) ∧
    next_event_id (data_env st3) =
      next_event_id (data_env Examples.empty_store) + 1.
Proof.
  assert (create Examples.db Examples.kw Examples.empty_store =
          (Ok Examples.entry0, Examples.created_store)) as H by (by vm_compute).
  split; [exact H|]. split; [done|].
  destruct (create_then_remove Examples.db Examples.kw Examples.empty_store
              Examples.entry0 Examples.created_store Examples.acked_store H)
    as (st3 & Hr & He & Hi & Hn & _).
  - done.
  - intros He. apply (f_equal (λ m, m !! "myreader")) in He.
    vm_compute in He. discriminate He.
  - apply acked_by_all_spec. intros n r. simpl.
    intros [[= <-] [= <-]]%lookup_singleton_Some.
    by apply elem_of_singleton.
  - intros db key. simpl. apply not_elem_of_empty.
  - exists st3. split; [exact Hr|]. split; [exact He|].
    split; [exact Hi|exact Hn].
Defined.

(** * [binlog/util.py] *)

(** X16. [cmp] is the sign of the comparison: 1 when the first argument is
    the greater, 0 when the two are equal, -1 when it is the smaller; and
    swapping the arguments negates it. *)
Theorem cmp_sign (a b : Z) :
  (util.cmp a b = 1 ↔ b < a)%Z ∧
  (util.cmp a b = 0 ↔ a = b)%Z ∧
  (util.cmp a b = -1 ↔ a < b)%Z ∧
  (util.cmp b a = - util.cmp a b)%Z.
Proof.
  unfold util.cmp.
  repeat case_bool_decide; simpl; repeat split; intros; lia.
Qed.

Section popminleft_facts.

Context {A : Type}.
Variable L : A → Z.

Local Abbreviation le_L := (λ x y : A, (L x ≤ L y)%Z).

#[local] Instance le_L_trans : Transitive le_L.
Proof. intros x y z ? ?. lia. Qed.

Lemma popminleft_calls_merge n (a b : list A) :
  (length a + length b)%nat = n →
  StronglySorted le_L a → StronglySorted le_L b →
  StronglySorted le_L (util.popminleft_calls L n a b) ∧
  util.popminleft_calls L n a b ≡ₚ (a ++ b)%list.
Proof.
  revert a b. induction n as [|n IH]; intros a b Hn Ha Hb.
  - destruct a, b; simpl in Hn; try lia. split; [constructor|done].
  - destruct a as [|x a'], b as [|y b']; simpl in Hn; [lia|..].
    + cbn [util.popminleft_calls util.popminleft].
      apply StronglySorted_inv in Hb as [Hb' Hy].
      destruct (IH [] b') as [Hs Hp]; [simpl; lia|constructor|done|].
      split; [|by rewrite Hp]. constructor; [done|]. by rewrite Hp.
    + cbn [util.popminleft_calls util.popminleft].
      apply StronglySorted_inv in Ha as [Ha' Hx].
      destruct (IH a' []) as [Hs Hp]; [simpl; lia|done|constructor|].
      split; [|by rewrite Hp]. constructor; [done|].
      rewrite Hp. by rewrite app_nil_r.
    + cbn [util.popminleft_calls util.popminleft].
      pose proof Ha as Ha0. pose proof Hb as Hb0.
      apply StronglySorted_inv in Ha as [Ha' Hx].
      apply StronglySorted_inv in Hb as [Hb' Hy].
      case_bool_decide as Hle; simpl.
      * destruct (IH a' (y :: b')) as [Hs Hp]; [simpl; lia|done|done|].
        split; [|by rewrite Hp]. constructor; [done|]. rewrite Hp.
        apply Forall_app. split; [done|]. constructor; [done|].
        eapply Forall_impl; [exact Hy|]. simpl. intros; lia.
      * destruct (IH (x :: a') b') as [Hs Hp]; [simpl; lia|done|done|].
        split.
        -- constructor; [done|]. rewrite Hp.
           apply Forall_cons. split; [lia|].
           apply Forall_app. split; [|done].
           eapply Forall_impl; [exact Hx|]. simpl. intros; lia.
        -- rewrite Hp. exact (Permutation_middle (x :: a') b' y).
Qed.

(** X17. On two deques that are each in ascending order of [L],
    [popminleft] takes away and returns an element whose [L] is the least of
    all the elements of both, leaves the two deques in ascending order, and
    returns nothing only when both are empty. *)
Theorem popminleft_least (a b : list A) :
  Sorted le_L a → Sorted le_L b →
  match util.popminleft L a b with
  | (Some x, (a', b')) =>
      (x :: a' ++ b')%list ≡ₚ (a ++ b)%list ∧
      Forall (λ y, (L x ≤ L y)%Z) (a ++ b)%list ∧
      Sorted le_L a' ∧ Sorted le_L b' ∧
      (a = x :: a' ∧ b = b' ∨ a = a' ∧ b = x :: b')
  | (None, (a', b')) => a = [] ∧ b = [] ∧ a' = [] ∧ b' = []
  end.
Proof.
  intros Ha Hb.
  pose proof (@Sorted_StronglySorted _ _ le_L_trans a Ha) as Ha'.
  pose proof (@Sorted_StronglySorted _ _ le_L_trans b Hb) as Hb'.
  destruct a as [|x a0], b as [|y b0]; cbn [util.popminleft]; [done|..].
  - apply StronglySorted_inv in Hb' as [Hs Hy].
    apply Sorted_inv in Hb as [Hb _].
    split; [done|]. split; [constructor; [lia|exact Hy]|].
    split; [constructor|]. split; [exact Hb|]. by right.
  - apply StronglySorted_inv in Ha' as [Hs Hx].
    apply Sorted_inv in Ha as [Ha _].
    split; [done|]. split; [rewrite app_nil_r; constructor; [lia|exact Hx]|].
    split; [exact Ha|]. split; [constructor|]. by left.
  - pose proof Ha as Ha0. pose proof Hb as Hb0.
    apply StronglySorted_inv in Ha' as [Hsa Hx].
    apply StronglySorted_inv in Hb' as [Hsb Hy].
    apply Sorted_inv in Ha as [Ha _]. apply Sorted_inv in Hb as [Hb _].
    case_bool_decide as Hle.
    + split; [done|]. split.
      { constructor; [lia|]. apply Forall_app. split; [exact Hx|].
        constructor; [exact Hle|].
        eapply Forall_impl; [exact Hy|]. simpl. intros; lia. }
      split; [exact Ha|]. split; [exact Hb0|]. by left.
    + split; [exact (Permutation_middle (x :: a0) b0 y)|]. split.
      { constructor; [lia|]. apply Forall_app. split.
        - eapply Forall_impl; [exact Hx|]. simpl. intros; lia.
        - constructor; [lia|exact Hy]. }
      split; [exact Ha0|]. split; [exact Hb|]. by right.
Qed.

(** More calls than there are elements return nothing more. *)
Lemma popminleft_calls_enough n (a b : list A) :
  (length a + length b ≤ n)%nat →
  util.popminleft_calls L (S n) a b = util.popminleft_calls L n a b.
Proof.
  revert a b. induction n as [|n IH]; intros a b Hn.
  - destruct a, b; simpl in Hn; try lia. done.
  - destruct a as [|x a'], b as [|y b']; [done|..].
    + change (y :: util.popminleft_calls L (S n) [] b' =
              y :: util.popminleft_calls L n [] b').
      f_equal. apply IH. simpl in *. lia.
    + change (x :: util.popminleft_calls L (S n) a' [] =
              x :: util.popminleft_calls L n a' []).
      f_equal. apply IH. simpl in *. lia.
    + cbn [util.popminleft_calls util.popminleft].
      case_bool_decide; f_equal.
      * apply (IH a' (y :: b')). simpl in *. lia.
      * apply (IH (x :: a') b'). simpl in *. lia.
Qed.

(** X18. Calling [popminleft] on two ascending deques until they are empty
    returns all their elements, each once, in ascending order of [L]: the
    calls merge the two deques, and a further call returns nothing. *)
Theorem popminleft_merges (a b : list A) :
  Sorted le_L a → Sorted le_L b →
  let out := util.popminleft_calls L (length a + length b) a b in
  Sorted le_L out ∧ out ≡ₚ (a ++ b)%list ∧
  util.popminleft_calls L (S (length a + length b)) a b = out.
Proof.
  intros Ha Hb out.
  destruct (popminleft_calls_merge (length a + length b) a b eq_refl
              (@Sorted_StronglySorted _ _ le_L_trans a Ha)
              (@Sorted_StronglySorted _ _ le_L_trans b Hb)) as [Hs Hp].
  split; [by apply StronglySorted_Sorted|]. split; [done|].
  by apply popminleft_calls_enough.
Qed.

End popminleft_facts.

Lemma popminleft_least_witness :
  Sorted (λ x y, (UtilExamples.left_bound x ≤ UtilExamples.left_bound y)%Z)
         UtilExamples.deque_a ∧
  Sorted (λ x y, (UtilExamples.left_bound x ≤ UtilExamples.left_bound y)%Z)
         UtilExamples.deque_b ∧
  util.popminleft UtilExamples.left_bound UtilExamples.deque_a
    UtilExamples.deque_b =
    (Some (1, 2)%Z, ([(5, 5); (9, 12)]%Z, UtilExamples.deque_b)) ∧
  Forall (λ y, (UtilExamples.left_bound (1, 2)%Z ≤ UtilExamples.left_bound y)%Z)
         (UtilExamples.deque_a ++ UtilExamples.deque_b)%list.
Proof.
  assert (Sorted (λ x y, (UtilExamples.left_bound x ≤ UtilExamples.left_bound y)%Z)
                 UtilExamples.deque_a) as Ha
    by (repeat constructor; unfold UtilExamples.left_bound; simpl; lia).
  assert (Sorted (λ x y, (UtilExamples.left_bound x ≤ UtilExamples.left_bound y)%Z)
                 UtilExamples.deque_b) as Hb
    by (repeat constructor; unfold UtilExamples.left_bound; simpl; lia).
  split; [exact Ha|]. split; [exact Hb|]. split; [reflexivity|].
  exact (proj1 (proj2 (popminleft_least UtilExamples.left_bound
                         UtilExamples.deque_a UtilExamples.deque_b Ha Hb))).
Defined.

Lemma popminleft_merges_witness :
  Sorted (λ x y, (UtilExamples.left_bound x ≤ UtilExamples.left_bound y)%Z)
         UtilExamples.deque_a ∧
  Sorted (λ x y, (UtilExamples.left_bound x ≤ UtilExamples.left_bound y)%Z)
         UtilExamples.deque_b ∧
  util.popminleft_calls UtilExamples.left_bound 5 UtilExamples.deque_a
    UtilExamples.deque_b =
    [(1, 2); (3, 4); (5, 5); (7, 8); (9, 12)]%Z ∧
  Sorted (λ x y, (UtilExamples.left_bound x ≤ UtilExamples.left_bound y)%Z)
    (util.popminleft_calls UtilExamples.left_bound
       (length UtilExamples.deque_a + length UtilExamples.deque_b)
       UtilExamples.deque_a UtilExamples.deque_b).
Proof.
  assert (Sorted (λ x y, (UtilExamples.left_bound x ≤ UtilExamples.left_bound y)%Z)
                 UtilExamples.deque_a) as Ha
    by (repeat constructor; unfold UtilExamples.left_bound; simpl; lia).
  assert (Sorted (λ x y, (UtilExamples.left_bound x ≤ UtilExamples.left_bound y)%Z)
                 UtilExamples.deque_b) as Hb
    by (repeat constructor; unfold UtilExamples.left_bound; simpl; lia).
  split; [exact Ha|]. split; [exact Hb|]. split; [reflexivity|].
  exact (proj1 (popminleft_merges UtilExamples.left_bound
                  UtilExamples.deque_a UtilExamples.deque_b Ha Hb)).
Defined.

(** * Further properties of the segmented log writer *)

Section RestartFacts.

Context {Data Bytes : Type}.
Variable pickle_dumps : Data → Bytes.
Variable LOG_PREFIX : string.

Local Abbreviation wappend := (Writer.append pickle_dumps LOG_PREFIX).
Local Abbreviation wappends := (Writer.appends pickle_dumps LOG_PREFIX).

Lemma recno_last_append {A} (db : Writer.RecnoDB A) (x : A) :
  Writer.recno_last (Writer.recno_append db x).2 =
    Some ((Writer.recno_append db x).1, x).
Proof. unfold Writer.recno_append, Writer.recno_last. simpl. apply last_snoc. Qed.

Lemma db_open_lookup (e : gmap string (Writer.RecnoDB Bytes)) name :
  is_Some (Writer.db_open name e !! name).
Proof.
  unfold Writer.db_open. destruct (e !! name) eqn:He; [by rewrite He|].
  rewrite lookup_insert_eq. by eexists.
Qed.

(** [set_current_log] on a state whose [logindex] is not empty opens a
    segment that is the last one of [logindex] and whose file exists. *)
Lemma set_current_log_opens (w : Writer.t Bytes) idx name :
  Writer.recno_last (Writer.logindex w) = Some (idx, name) →
  ∃ w' idx' name',
    Writer.set_current_log LOG_PREFIX w = inr w' ∧
    Writer.recno_last (Writer.logindex w') = Some (idx', name') ∧
    Writer._current_log w' = Some name' ∧
    is_Some (Writer.env w' !! name') ∧
    Writer.max_log_events w' = Writer.max_log_events w.
Proof.
  intros Hl. unfold Writer.set_current_log. rewrite Hl.
  destruct (Writer.recno_last (Writer.records _ name)) as [[eidx b]|].
  - case_bool_decide.
    + eexists _, _, _. split; [done|]. simpl.
      split; [apply recno_last_append|]. split; [done|].
      split; [apply db_open_lookup|done].
    + eexists _, _, _. split; [done|]. simpl.
      split; [done|]. split; [done|]. split; [apply db_open_lookup|done].
  - eexists _, _, _. split; [done|]. simpl.
    split; [done|]. split; [done|]. split; [apply db_open_lookup|done].
Qed.

(** A new writer object on a consistent state whose last segment has room
    opens that segment: it is in the state of the writer it replaces. *)
Lemma set_current_log_reopen (w : Writer.t Bytes) :
  Restart.consistent w →
  Writer.next_will_create_log w = false →
  Writer.set_current_log LOG_PREFIX
    (Restart.reopen w (Writer.max_log_events w)) = inr w.
Proof.
  intros (idx & name & Hl & Hcur & [db Hdb] & Hflag) Hf.
  unfold Writer.set_current_log, Restart.reopen. simpl. rewrite Hl.
  unfold Writer.db_open. rewrite Hdb.
  rewrite Hf in Hflag. unfold Restart.is_full in Hflag.
  destruct (Writer.recno_last (Writer.records (Writer.env w) name))
    as [[eidx b]|].
  - rewrite <- Hflag. destruct w; simpl in *. by subst.
  - destruct w; simpl in *. by subst.
Qed.

Lemma append_reopen (w : Writer.t Bytes) d :
  Restart.consistent w →
  wappend (Restart.reopen w (Writer.max_log_events w)) d = wappend w d.
Proof.
  intros Hc. destruct (Writer.next_will_create_log w) eqn:Hf.
  - unfold Writer.append, Restart.reopen. simpl. by rewrite Hf.
  - unfold Writer.append at 1. simpl.
    change {| Writer.env := Writer.env w;
              Writer.logindex := Writer.logindex w;
              Writer.max_log_events := Writer.max_log_events w;
              Writer._current_log := None;
              Writer.next_will_create_log := false;
              Writer.reader_pointers := Writer.reader_pointers w |}
      with (Restart.reopen w (Writer.max_log_events w)).
    rewrite (set_current_log_reopen w Hc Hf).
    unfold Writer.append. rewrite Hf.
    destruct Hc as (idx & name & _ & Hcur & _).
    destruct w; simpl in *; subst. reflexivity.
Qed.

(** From a consistent state an append never fails and leads to a consistent
    state. *)
Lemma append_consistent (w : Writer.t Bytes) d :
  Restart.consistent w →
  ∃ w', wappend w d = inr w' ∧ Restart.consistent w' ∧
        Writer.max_log_events w' = Writer.max_log_events w.
Proof.
  intros (idx & name & Hl & Hcur & Hdb & Hflag).
  assert (∃ w1 idx1 name1,
    (let w0 := if Writer.next_will_create_log w
               then Restart.reopen w (Writer.max_log_events w) else w in
     match Writer._current_log w0 with
     | None => Writer.set_current_log LOG_PREFIX w0
     | Some _ => inr w0
     end) = inr w1 ∧
    Writer.recno_last (Writer.logindex w1) = Some (idx1, name1) ∧
    Writer._current_log w1 = Some name1 ∧
    Writer.max_log_events w1 = Writer.max_log_events w)
    as (w1 & idx1 & name1 & Hw1 & Hl1 & Hcur1 & Hmax1).
  { destruct (Writer.next_will_create_log w); simpl.
    - destruct (set_current_log_opens
                  (Restart.reopen w (Writer.max_log_events w)) idx name Hl)
        as (w' & idx' & name' & Hs & Hl' & Hc' & _ & Hm').
      by exists w', idx', name'.
    - rewrite Hcur. by exists w, idx, name. }
  unfold Writer.append.
  change {| Writer.env := Writer.env w;
            Writer.logindex := Writer.logindex w;
            Writer.max_log_events := Writer.max_log_events w;
            Writer._current_log := None;
            Writer.next_will_create_log := false;
            Writer.reader_pointers := Writer.reader_pointers w |}
    with (Restart.reopen w (Writer.max_log_events w)).
  simpl in Hw1. rewrite Hw1, Hcur1.
  destruct (Writer.recno_append (Writer.records (Writer.env w1) name1)
              (pickle_dumps d)) as [i db] eqn:Hra.
  eexists. split; [done|]. split; [|by simpl].
  exists idx1, name1. simpl. split; [done|]. split; [done|].
  rewrite lookup_insert_eq. split; [by eexists|].
  unfold Restart.is_full, Writer.records. simpl. rewrite lookup_insert_eq.
  simpl. pose proof (recno_last_append
    (Writer.records (Writer.env w1) name1) (pickle_dumps d)) as Hlast.
  rewrite Hra in Hlast. simpl in Hlast. rewrite Hlast. by rewrite Hmax1.
Qed.

Lemma append_init_consistent max d :
  ∃ w', wappend (Writer.init max) d = inr w' ∧ Restart.consistent w' ∧
        Writer.max_log_events w' = max.
Proof.
  rewrite append_init. eexists. split; [done|]. split; [|done].
  exists 1, (LOG_PREFIX ++ ".1"). simpl. split; [done|]. split; [done|].
  rewrite lookup_singleton_eq. split; [by eexists|].
  unfold Restart.is_full, Writer.records. simpl.
  by rewrite lookup_singleton_eq.
Qed.

Lemma appends_consistent (w : Writer.t Bytes) ds :
  Restart.consistent w →
  ∃ w', wappends w ds = inr w' ∧ Restart.consistent w' ∧
        Writer.max_log_events w' = Writer.max_log_events w.
Proof.
  intros Hc. induction ds as [|d ds IH] using rev_ind.
  - by exists w.
  - destruct IH as (w1 & Hw1 & Hc1 & Hm1).
    rewrite appends_snoc, Hw1.
    destruct (append_consistent w1 d Hc1) as (w2 & Hw2 & Hc2 & Hm2).
    exists w2. split; [done|]. split; [done|congruence].
Qed.

Lemma appends_cons (w : Writer.t Bytes) d ds :
  wappends w (d :: ds) =
    match wappend w d with
    | inl err => inl err
    | inr w' => wappends w' ds
    end.
Proof.
  unfold Writer.appends. simpl.
  destruct (wappend w d) as [err|w']; [|done].
  induction ds as [|d' ds IH]; [done|]. simpl. apply IH.
Qed.

(** X19. Appending to a fresh writer never fails.  And a writer can be
    replaced at any point: after any run of appends on a fresh writer, a new
    writer object opened on the environment with the same capacity continues
    the log exactly as the first writer would have (same files, same
    [logindex], same state), whatever is appended next. *)
Theorem restart_continues_the_log max ds1 d ds2 :
  ∃ w1 w2,
    wappends (Writer.init max) ds1 = inr w1 ∧
    wappends w1 (d :: ds2) = inr w2 ∧
    wappends (Restart.reopen w1 max) (d :: ds2) = inr w2.
Proof.
  assert (∃ w1, wappends (Writer.init max) ds1 = inr w1 ∧
                Writer.max_log_events w1 = max ∧
                (ds1 = [] ∧ w1 = Writer.init max ∨ Restart.consistent w1))
    as (w1 & Hw1 & Hm1 & Hcase).
  { destruct ds1 as [|d1 ds1].
    - exists (Writer.init max). split; [done|]. split; [done|]. by left.
    - destruct (append_init_consistent max d1) as (wa & Ha & Hca & Hma).
      destruct (appends_consistent wa ds1 Hca) as (wb & Hb & Hcb & Hmb).
      exists wb. rewrite appends_cons, Ha. split; [done|].
      split; [congruence|]. by right. }
  exists w1.
  assert (wappend (Restart.reopen w1 max) d = wappend w1 d) as Hre.
  { destruct Hcase as [[_ ->]|Hc]; [done|].
    rewrite <- Hm1. by apply append_reopen. }
  assert (∃ wa, wappend w1 d = inr wa ∧ Restart.consistent wa)
    as (wa & Ha & Hca).
  { destruct Hcase as [[_ ->]|Hc].
    - destruct (append_init_consistent max d) as (wa & Ha & Hca & _).
      by exists wa.
    - destruct (append_consistent w1 d Hc) as (wa & Ha & Hca & _).
      by exists wa. }
  destruct (appends_consistent wa ds2 Hca) as (w2 & Hw2 & _).
  exists w2. split; [done|]. rewrite !appends_cons, Hre, Ha. by split.
Qed.

(** X20. A latent failure of [set_current_log]: when [logindex] is empty
    but the file of the first segment exists and is full, the rotation reads
    the variable [idx], which only the other branch assigns, and the call
    raises; so does [append] on a writer that has no segment open. *)
Theorem set_current_log_unbound (w : Writer.t Bytes) eidx b d :
  Writer.logindex w = [] →
  Writer.recno_last (Writer.records (Writer.env w) (LOG_PREFIX ++ ".1"))
    = Some (eidx, b) →
  Writer.max_log_events w ≤ eidx →
  Writer.set_current_log LOG_PREFIX w = inl Writer.UnboundLocalError ∧
  (Writer._current_log w = None →
   wappend w d = inl Writer.UnboundLocalError).
Proof.
  intros Hl Hrec Hfull.
  assert (∀ w0 : Writer.t Bytes,
    Writer.logindex w0 = [] → Writer.env w0 = Writer.env w →
    Writer.max_log_events w0 = Writer.max_log_events w →
    Writer.set_current_log LOG_PREFIX w0 = inl Writer.UnboundLocalError)
    as Hset.
  { intros w0 Hl0 He0 Hm0. unfold Writer.set_current_log.
    rewrite Hl0, He0, Hm0. simpl.
    assert (Writer.db_open (LOG_PREFIX ++ ".1") (Writer.env w) = Writer.env w)
      as ->.
    { unfold Writer.db_open, Writer.records in *.
      by destruct (Writer.env w !! (LOG_PREFIX ++ ".1")). }
    rewrite Hrec. by rewrite bool_decide_eq_true_2. }
  split; [by apply Hset|].
  intros Hcur. unfold Writer.append.
  destruct (Writer.next_will_create_log w); simpl.
  - by rewrite Hset.
  - by rewrite Hcur, Hset.
Qed.

End RestartFacts.

Lemma set_current_log_unbound_witness :
  Writer.set_current_log "log" WriterExamples.orphan_segment =
    inl Writer.UnboundLocalError ∧
  Writer.append (λ d : N, d) "log" WriterExamples.orphan_segment 11 =
    inl Writer.UnboundLocalError.
Proof.
  assert (Writer.recno_last
            (Writer.records (Writer.env WriterExamples.orphan_segment)
               ("log" ++ ".1")) = Some (1, 10)) as Hrec
    by (vm_compute; reflexivity).
  assert (Writer.max_log_events WriterExamples.orphan_segment ≤ 1) as Hfull
    by (vm_compute; discriminate).
  destruct (set_current_log_unbound (λ d : N, d) "log"
              WriterExamples.orphan_segment 1 10 11 eq_refl Hrec Hfull)
    as [Hs Ha].
  split; [exact Hs|]. exact (Ha eq_refl).
Defined.
Section LayoutFacts.

Context {Data Bytes : Type}.
Variable pickle_dumps : Data → Bytes.
Variable LOG_PREFIX : string.

Local Abbreviation lappend := (Writer.append pickle_dumps LOG_PREFIX).
Local Abbreviation lappends := (Writer.appends pickle_dumps LOG_PREFIX).
Local Abbreviation seg_name := (Layout.seg_name LOG_PREFIX).
Local Abbreviation index_upto := (Layout.index_upto LOG_PREFIX).
Local Abbreviation laid_out := (Layout.laid_out LOG_PREFIX).

Lemma records_Some (e : gmap string (Writer.RecnoDB Bytes)) name db :
  e !! name = Some db → Writer.records e name = db.
Proof.
  intros H. exact (f_equal (default []) H).
Qed.

Lemma db_open_Some (e : gmap string (Writer.RecnoDB Bytes)) name db :
  e !! name = Some db → Writer.db_open name e = e.
Proof. intros H. unfold Writer.db_open. by rewrite H. Qed.

Lemma db_open_None (e : gmap string (Writer.RecnoDB Bytes)) name :
  e !! name = None → Writer.db_open name e = <[name := []]> e.
Proof. intros H. unfold Writer.db_open. by rewrite H. Qed.

Lemma seg_name_inj j1 j2 : seg_name j1 = seg_name j2 → j1 = j2.
Proof.
  unfold Layout.seg_name. intros H.
  apply (inj (String.app LOG_PREFIX)) in H.
  apply (inj (String.app ".")) in H.
  apply (inj pretty) in H. lia.
Qed.

Lemma capacity_pos max : (1 ≤ Layout.capacity max)%nat.
Proof. unfold Layout.capacity. lia. Qed.

Lemma capacity_reached max c :
  (1 ≤ c)%nat → (max ≤ N.of_nat c ↔ (Layout.capacity max ≤ c)%nat).
Proof. unfold Layout.capacity. lia. Qed.

Lemma index_upto_last s :
  Writer.recno_last (index_upto (S s)) = Some (N.of_nat (S s), seg_name (S s)).
Proof.
  unfold Writer.recno_last, Layout.index_upto.
  rewrite seq_S, map_app. simpl. apply last_snoc.
Qed.

Lemma index_upto_append s :
  (Writer.recno_append (index_upto (S s)) (seg_name (S (S s)))).2 =
    index_upto (S (S s)).
Proof.
  unfold Writer.recno_append. rewrite index_upto_last.
  cbn [snd]. unfold Layout.index_upto.
  rewrite (seq_S (S s) 1), map_app. cbn [map].
  do 3 f_equal. lia.
Qed.

Lemma index_upto_find s j :
  (1 ≤ j ≤ s)%nat →
  list_find (λ r : N * string, r.1 = N.of_nat j) (index_upto s) =
    Some ((j - 1)%nat, (N.of_nat j, seg_name j)).
Proof.
  intros Hj. apply list_find_Some. unfold Layout.index_upto.
  split; [|split; [done|]].
  - rewrite list_lookup_fmap, lookup_seq_lt by lia. simpl.
    by replace (S (j - 1)) with j by lia.
  - intros i y. rewrite list_lookup_fmap.
    destruct (seq 1 s !! i) as [j'|] eqn:Hi; [|done].
    apply lookup_seq in Hi as [-> Hi]. simpl. intros [= <-] Hlt. simpl. lia.
Qed.

Lemma chunk_length cap (bs : list Bytes) j0 :
  length (Layout.chunk cap bs j0) = (cap `min` (length bs - j0 * cap))%nat.
Proof. unfold Layout.chunk. by rewrite length_take, length_drop. Qed.

(** A record appended after full runs does not change them. *)
Lemma chunk_app_full cap (bs : list Bytes) b j0 :
  ((j0 + 1) * cap ≤ length bs)%nat →
  Layout.chunk cap (bs ++ [b]) j0 = Layout.chunk cap bs j0.
Proof.
  intros Hlen. unfold Layout.chunk.
  rewrite drop_app_le by lia. rewrite take_app_le; [done|].
  rewrite length_drop. lia.
Qed.

(** A record appended to a run that has room goes to its end. *)
Lemma chunk_app_room cap (bs : list Bytes) b j0 :
  (j0 * cap ≤ length bs)%nat → (length bs < (j0 + 1) * cap)%nat →
  Layout.chunk cap (bs ++ [b]) j0 = (Layout.chunk cap bs j0 ++ [b])%list.
Proof.
  intros Hlo Hhi. unfold Layout.chunk.
  rewrite drop_app_le by lia.
  rewrite (take_ge (drop (j0 * cap) bs)) by (rewrite length_drop; lia).
  apply take_ge. rewrite length_app, length_drop. simpl. lia.
Qed.

(** A record appended after full runs starts the next run. *)
Lemma chunk_app_new cap (bs : list Bytes) b j0 :
  (1 ≤ cap)%nat → length bs = (j0 * cap)%nat →
  Layout.chunk cap (bs ++ [b]) j0 = [b].
Proof.
  intros Hcap Hlen. unfold Layout.chunk.
  rewrite (drop_app_length' bs [b] (j0 * cap) (eq_sym Hlen)).
  apply take_ge. simpl. lia.
Qed.

Lemma laid_out_init max d :
  laid_out (Writer.filling LOG_PREFIX max [pickle_dumps d]) max
           [pickle_dumps d] 0 1.
Proof.
  pose proof (capacity_pos max) as Hcap.
  split; simpl; try done.
  - intros j0 Hj0. replace j0 with 0%nat by lia.
    change (seg_name 1) with (LOG_PREFIX ++ ".1").
    rewrite lookup_singleton_eq. do 2 f_equal.
    unfold Layout.chunk. simpl. symmetry. apply take_ge. simpl. lia.
  - intros j Hj. change (LOG_PREFIX ++ ".1") with (seg_name 1).
    apply lookup_singleton_ne. intros Heq%seg_name_inj. lia.
  - apply bool_decide_ext. rewrite <- (capacity_reached max 1) by lia. lia.
Qed.

(** One append on a laid-out writer: the record joins the current segment
    when it has room, and starts the next segment otherwise. *)
Lemma laid_out_append (w : Writer.t Bytes) max bs s0 c d :
  laid_out w max bs s0 c →
  ∃ w', lappend w d = inr w' ∧
    if bool_decide (c < Layout.capacity max)%nat
    then laid_out w' max (bs ++ [pickle_dumps d]) s0 (S c)
    else laid_out w' max (bs ++ [pickle_dumps d]) (S s0) 1.
Proof.
  intros [Hlen Hc Hidx Henv Hnone Hcur Hflag Hmax].
  pose proof (capacity_pos max) as Hcap.
  pose proof (Henv s0 (le_n _)) as Hlast.
  assert (length (Layout.chunk (Layout.capacity max) bs s0) = c) as Hclen
    by (rewrite chunk_length; lia).
  assert (Layout.chunk (Layout.capacity max) bs s0 ≠ []) as Hcne
    by (intros Hnil; rewrite Hnil in Hclen; simpl in Hclen; lia).
  destruct (recno_last_numbered _ Hcne) as [b0 Hrl]. rewrite Hclen in Hrl.
  destruct (decide (c < Layout.capacity max)%nat) as [Hroom|Hroom];
    [rewrite (bool_decide_eq_true_2 (c < Layout.capacity max)%nat) by done
    |rewrite (bool_decide_eq_false_2 (c < Layout.capacity max)%nat) by done].
  - (* the current segment has room *)
    rewrite bool_decide_eq_false_2 in Hflag by lia.
    unfold Writer.append. rewrite Hflag. cbn iota zeta. rewrite !Hcur.
    cbn iota zeta.
    rewrite (records_Some _ _ _ Hlast).
    unfold Writer.recno_append. rewrite Hrl. cbn iota zeta beta.
    eexists. split; [done|].
    split; simpl; try done.
    + rewrite length_app. simpl. lia.
    + lia.
    + intros j0 Hj0. destruct (decide (j0 = s0)) as [->|Hne].
      * rewrite lookup_insert_eq. f_equal.
        rewrite chunk_app_room by lia.
        rewrite numbered_snoc, Hclen. do 3 f_equal. lia.
      * rewrite lookup_insert_ne by (intros Heq%seg_name_inj; lia).
        rewrite chunk_app_full by nia. by apply Henv.
    + intros j Hj. rewrite lookup_insert_ne by (intros Heq%seg_name_inj; lia).
      by apply Hnone.
    + apply bool_decide_ext. rewrite Hmax.
      rewrite <- (capacity_reached max (S c)) by lia. lia.
  - (* the current segment is full: the deferred rotation *)
    assert (c = Layout.capacity max) as -> by lia.
    rewrite bool_decide_eq_true_2 in Hflag by lia.
    unfold Writer.append. rewrite Hflag. cbn iota zeta.
    cbn [Writer._current_log]. cbn iota.
    unfold Writer.set_current_log.
    cbn [Writer.logindex Writer.env Writer.max_log_events
         Writer.next_will_create_log Writer.reader_pointers].
    rewrite Hidx, index_upto_last. cbn iota zeta beta.
    rewrite (db_open_Some _ _ _ Hlast), (records_Some _ _ _ Hlast), Hrl.
    cbn iota.
    rewrite bool_decide_eq_true_2
      by (rewrite Hmax; apply capacity_reached; lia).
    replace (LOG_PREFIX ++ "." ++ pretty (N.of_nat (S s0) + 1))
      with (seg_name (S (S s0)))
      by (unfold Layout.seg_name; do 3 f_equal; lia).
    rewrite index_upto_append.
    rewrite (db_open_None _ _ (Hnone (S (S s0)) (le_n _))).
    cbn [Writer._current_log Writer.logindex Writer.env Writer.max_log_events
         Writer.next_will_create_log Writer.reader_pointers].
    rewrite (records_Some _ _ _
               (lookup_insert_eq (Writer.env w) (seg_name (S (S s0))) [])).
    unfold Writer.recno_append, Writer.recno_last. cbn [last].
    rewrite insert_insert_eq.
    eexists. split; [done|].
    split; simpl; try done.
    + rewrite length_app. simpl. lia.
    + intros j0 Hj0. destruct (decide (j0 = S s0)) as [->|Hne].
      * rewrite lookup_insert_eq. f_equal.
        by rewrite chunk_app_new by (done || simpl; lia).
      * rewrite !lookup_insert_ne by (intros Heq%seg_name_inj; lia).
        rewrite chunk_app_full by nia. apply Henv. lia.
    + intros j Hj.
      rewrite !lookup_insert_ne by (intros Heq%seg_name_inj; lia).
      apply Hnone. lia.
    + apply bool_decide_ext. rewrite Hmax.
      rewrite <- (capacity_reached max 1) by lia. lia.
Qed.

Lemma laid_out_appends max d ds :
  ∃ w s0 c, lappends (Writer.init max) (d :: ds) = inr w ∧
            laid_out w max (map pickle_dumps (d :: ds)) s0 c.
Proof.
  induction ds as [|d' ds IH] using rev_ind.
  - exists (Writer.filling LOG_PREFIX max [pickle_dumps d]), 0%nat, 1%nat.
    split; [apply append_init|apply laid_out_init].
  - destruct IH as (w & s0 & c & Hw & Hlo).
    destruct (laid_out_append w max _ s0 c d' Hlo) as (w' & Hw' & Hcase).
    change (d :: ds ++ [d'])%list with ((d :: ds) ++ [d'])%list.
    rewrite appends_snoc, Hw, map_app. simpl (map _ [d']).
    case_bool_decide; by eexists w', _, _.
Qed.

(** X21. Where the records of a run of appends lie.  After any run of
    appends on a fresh writer, with [cap] records per segment (the capacity,
    1 when it is 0) and [n] records appended, [logindex] holds the segments
    1 to the ceiling of [n / cap], in order, and segment [j] holds the
    [j]-th run of [cap] payloads (the last one may be shorter), numbered
    from 1: no record is lost, duplicated or reordered by the rotations. *)
Theorem appends_layout max d ds :
  ∃ w, lappends (Writer.init max) (d :: ds) = inr w ∧
    Writer.logindex w =
      index_upto ((length (d :: ds) + Layout.capacity max - 1)
                    / Layout.capacity max) ∧
    ∀ j, (1 ≤ j ≤ (length (d :: ds) + Layout.capacity max - 1)
                    / Layout.capacity max)%nat →
      Writer.segment w (N.of_nat j) =
        Some (Writer.numbered
                (Layout.chunk (Layout.capacity max)
                   (map pickle_dumps (d :: ds)) (j - 1))).
Proof.
  destruct (laid_out_appends max d ds) as (w & s0 & c & Hw & Hlo).
  destruct Hlo as [Hlen Hc Hidx Henv _ _ _ _].
  pose proof (capacity_pos max) as Hcap.
  rewrite length_map in Hlen.
  assert ((length (d :: ds) + Layout.capacity max - 1) / Layout.capacity max
          = S s0)%nat as ->.
  { rewrite Hlen.
    replace (s0 * Layout.capacity max + c + Layout.capacity max - 1)%nat
      with ((c - 1) + S s0 * Layout.capacity max)%nat by lia.
    rewrite Nat.div_add by lia. rewrite Nat.div_small by lia. lia. }
  exists w. split; [done|]. split; [done|].
  intros j Hj. unfold Writer.segment.
  rewrite Hidx, (index_upto_find (S s0) j) by lia.
  unfold Writer.records.
  replace j with (S (j - 1)) at 1 by lia.
  by rewrite Henv by lia.
Qed.

End LayoutFacts.

(** The test of multiple appends: twenty payloads, ten per segment. *)
Example appends_layout_twenty :
  ∃ w, Examples.wappends (Examples.writer 10) WriterExamples.twenty = inr w ∧
    Writer.logindex w = [(1, "log.1"); (2, "log.2")] ∧
    Writer.segment w 1 =
      Some (Writer.numbered (map N.of_nat (seq 0 10))) ∧
    Writer.segment w 2 =
      Some (Writer.numbered (map N.of_nat (seq 10 10))).
Proof. eexists. split; [vm_compute; reflexivity|]. by vm_compute. Qed.
